(** * AudioNodeManager: graph mutation channel and node life cycle

    Shallow embedding of
    [common/cpp/audioapi/core/utils/AudioNodeManager.cpp]
    (react-native-audio-api).  The manager is the consumer of a bounded
    single-producer/single-consumer channel of graph mutation events, keeps
    three tracked vectors of shared handles, and once per render quantum
    sweeps them for nodes that nobody else owns.

    Conventions of the embedding:
    - a [std::shared_ptr<T>] is modelled by the identity of its pointee (a
      natural number standing for the object's address); handles are assumed
      non-null, as every handler dereferences them unconditionally;
    - [std::vector] is a [list], element 0 first; [push_back] appends at the
      end, [erase(it)] removes one position and leaves the iterator on the
      element that followed;
    - the objects the manager talks to ([AudioNode],
      [AudioScheduledSourceNode], [AudioParam]) are declared in headers that
      are not part of the sources at hand: they are an interface, the class
      [AudioGraph], and every theorem holds for all of its implementations;
    - the manager's state carries a ghost [trace] of the collaborator calls
      it issued, oldest first, so that "cleanup was invoked" is a statement
      about the run. *)

From Stdlib Require Import List Arith Bool Lia PeanoNat Permutation.
Import ListNotations.

Set Implicit Arguments.

(** ** Identities *)

Definition node_id := nat.
Definition param_id := nat.

(** Linear arithmetic over counts of handles. *)
Ltac count_lia := unfold node_id, param_id in *; lia.

(** ** Events (AudioNodeManager::Event) *)

Inductive ConnectionType := CONNECT | DISCONNECT | DISCONNECT_ALL | ADD.

Inductive EventPayloadType := NODES | PARAMS | SOURCE_NODE | AUDIO_PARAM | NODE.

(** The payload union together with the member that [payloadType] selects. *)
Inductive EventPayload :=
| payload_nodes (from to : node_id)
| payload_params (from : node_id) (to : param_id)
| payload_sourceNode (sourceNode : node_id)
| payload_audioParam (audioParam : param_id)
| payload_node (node : node_id).

Record Event := mkEvent { type : ConnectionType; payload : EventPayload }.

Definition payloadType (event : Event) : EventPayloadType :=
  match payload event with
  | payload_nodes _ _ => NODES
  | payload_params _ _ => PARAMS
  | payload_sourceNode _ => SOURCE_NODE
  | payload_audioParam _ => AUDIO_PARAM
  | payload_node _ => NODE
  end.

(** Number of shared handles to node [n] that an event owns while it sits in
    the channel. *)
Definition event_holds (n : node_id) (event : Event) : nat :=
  match payload event with
  | payload_nodes from to => (if from =? n then 1 else 0) + (if to =? n then 1 else 0)
  | payload_params from _ => if from =? n then 1 else 0
  | payload_sourceNode s => if s =? n then 1 else 0
  | payload_audioParam _ => 0
  | payload_node x => if x =? n then 1 else 0
  end.

(** ** Results of the render-thread operations *)

(** The handlers stop on a failed [assert], as a debug build does; what a
    build without assertions does from there on is not modelled. *)
Inductive Fault :=
| AssertionFailed      (* an [assert] of the source does not hold *)
| InvalidIterator      (* an erased element is reached through a stale iterator *)
| OutOfFuel.           (* the loop bound of the model was too small *)

Inductive Result (A : Type) :=
| Ok (a : A)
| Abort (f : Fault).

Arguments Ok {A} a.
Arguments Abort {A} f.

Definition bind {A B : Type} (r : Result A) (k : A -> Result B) : Result B :=
  match r with
  | Ok a => k a
  | Abort f => Abort f
  end.

Notation "x <- r ;; k" := (bind r (fun x => k))
  (at level 61, r at next level, right associativity).

(** ** The bounded SPSC channel *)

Module spsc.

Inductive ResponseStatus := SUCCESS | CHANNEL_FULL | CHANNEL_EMPTY.

(** Modelled from the spec: [audioapi/utils/SpscChannel.hpp] is not among
    the sources.  Section 4.1: fixed capacity at construction, FIFO, a
    non-blocking poll that tells "value received" from "channel currently
    empty", and a non-blocking enqueue that fails when the channel is
    full.  The buffer lists the queued values, oldest first. *)
Record Channel (A : Type) := mkChannel { capacity : nat; buffer : list A }.

Definition channel (A : Type) (cap : nat) : Channel A := mkChannel cap [].

Definition is_full {A} (ch : Channel A) : bool := capacity ch <=? length (buffer ch).

Definition try_send {A} (v : A) (ch : Channel A) : ResponseStatus * Channel A :=
  if is_full ch then (CHANNEL_FULL, ch)
  else (SUCCESS, mkChannel (capacity ch) (buffer ch ++ [v])).

Definition try_receive {A} (ch : Channel A) : ResponseStatus * option A * Channel A :=
  match buffer ch with
  | [] => (CHANNEL_EMPTY, None, ch)
  | v :: q => (SUCCESS, Some v, mkChannel (capacity ch) q)
  end.

(** [send] under WAIT_ON_FULL: the producer waits for room.  A sequential
    step of the model has no consumer running beside it, so a send into a
    full channel does not return: [None]. *)
Definition send {A} (v : A) (ch : Channel A) : option (Channel A) :=
  match try_send v ch with
  | (SUCCESS, ch') => Some ch'
  | _ => None
  end.

End spsc.

(** ** Collaborators *)

Inductive PlaybackState := UNSCHEDULED | SCHEDULED | PLAYING | FINISHED.

(** The graph objects, as far as the manager uses them.  [W] is the state of
    all nodes and parameters.  [external_owners w n] counts the shared
    handles to [n] that live outside the manager (API wrappers, edges of
    other nodes).  The operations are the members the manager calls:
    [AudioNode::cleanup], [connectNode], [disconnectNode], [connectParam],
    [disconnectParam], the member [outputNodes_] it iterates, and the
    playback state behind [isUnscheduled] and [isFinished]. *)
Class AudioGraph (W : Type) := {
  external_owners : W -> node_id -> nat;
  playbackState : W -> node_id -> PlaybackState;
  outputNodes_ : W -> node_id -> list node_id;
  node_cleanup : node_id -> W -> W;
  connectNode : node_id -> node_id -> W -> W;
  disconnectNode : node_id -> node_id -> W -> W;
  connectParam : node_id -> param_id -> W -> W;
  disconnectParam : node_id -> param_id -> W -> W
}.

(** Modelled from the spec: [AudioScheduledSourceNode.h] is not among the
    sources.  Section 3 gives a source node a playback state in
    {UNSCHEDULED, SCHEDULED, PLAYING, FINISHED}; section 6 names the two
    queries "is unscheduled" and "is finished". *)
Definition isUnscheduled {W} `{AudioGraph W} (w : W) (n : node_id) : bool :=
  match playbackState w n with UNSCHEDULED => true | _ => false end.

Definition isFinished {W} `{AudioGraph W} (w : W) (n : node_id) : bool :=
  match playbackState w n with FINISHED => true | _ => false end.

(** Calls issued by the manager to its collaborators. *)
Inductive Call :=
| CallConnectNode (from to : node_id)
| CallDisconnectNode (from to : node_id)
| CallConnectParam (from : node_id) (to : param_id)
| CallDisconnectParam (from : node_id) (to : param_id)
| CallCleanup (n : node_id)
| CallTryAddNodeForDeconstruction (n : node_id) (accepted : bool).

Definition is_cleanup_of (n : node_id) (c : Call) : bool :=
  match c with
  | CallCleanup x => x =? n
  | _ => false
  end.

(** How often [AudioNode::cleanup] was invoked on [n] in a trace. *)
Definition cleanup_calls (n : node_id) (t : list Call) : nat :=
  length (filter (is_cleanup_of n) t).

(** ** The manager *)

Section Manager.

Context {W : Type} `{AudioGraph W}.

Record Manager := mkManager {
  env : W;
  receiver_ : spsc.Channel Event;          (* sender_ is its other end *)
  sourceNodes_ : list node_id;
  processingNodes_ : list node_id;
  audioParams_ : list param_id;
  nodeDeconstructor_ : spsc.Channel node_id;
  trace : list Call
}.

Definition set_env (w : W) (m : Manager) : Manager :=
  mkManager w (receiver_ m) (sourceNodes_ m) (processingNodes_ m)
    (audioParams_ m) (nodeDeconstructor_ m) (trace m).

Definition set_receiver (ch : spsc.Channel Event) (m : Manager) : Manager :=
  mkManager (env m) ch (sourceNodes_ m) (processingNodes_ m)
    (audioParams_ m) (nodeDeconstructor_ m) (trace m).

Definition set_sourceNodes (l : list node_id) (m : Manager) : Manager :=
  mkManager (env m) (receiver_ m) l (processingNodes_ m)
    (audioParams_ m) (nodeDeconstructor_ m) (trace m).

Definition set_processingNodes (l : list node_id) (m : Manager) : Manager :=
  mkManager (env m) (receiver_ m) (sourceNodes_ m) l
    (audioParams_ m) (nodeDeconstructor_ m) (trace m).

Definition set_audioParams (l : list param_id) (m : Manager) : Manager :=
  mkManager (env m) (receiver_ m) (sourceNodes_ m) (processingNodes_ m)
    l (nodeDeconstructor_ m) (trace m).

Definition set_nodeDeconstructor (ch : spsc.Channel node_id) (m : Manager) : Manager :=
  mkManager (env m) (receiver_ m) (sourceNodes_ m) (processingNodes_ m)
    (audioParams_ m) ch (trace m).

Definition log (c : Call) (m : Manager) : Manager :=
  mkManager (env m) (receiver_ m) (sourceNodes_ m) (processingNodes_ m)
    (audioParams_ m) (nodeDeconstructor_ m) (trace m ++ [c]).

(** A call to a member of a node: the graph changes, the trace records it. *)
Definition call (c : Call) (f : W -> W) (m : Manager) : Manager :=
  log c (set_env (f (env m)) m).

(** AudioNodeManager::AudioNodeManager *)
Definition AudioNodeManager_new (w : W) (kChannelCapacity destructorCapacity : nat) : Manager :=
  mkManager w (spsc.channel Event kChannelCapacity) [] [] []
    (spsc.channel node_id destructorCapacity) [].

(** Handles to [n] inside the events that wait in the channel. *)
Definition queue_holds (n : node_id) (q : list Event) : nat :=
  list_sum (map (event_holds n) q).

(** [shared_ptr::use_count] of the handle to [n]: every owner of the
    object counts once, the ones outside the manager, one per entry of a
    tracked vector, one per handle inside a queued event, one per handle
    waiting in the destructor's channel. *)
Definition use_count (m : Manager) (n : node_id) : nat :=
  external_owners (env m) n
  + count_occ Nat.eq_dec (sourceNodes_ m) n
  + count_occ Nat.eq_dec (processingNodes_ m) n
  + queue_holds n (spsc.buffer (receiver_ m))
  + count_occ Nat.eq_dec (spsc.buffer (nodeDeconstructor_ m)) n.

(** *** Producer side *)

Definition send_event (event : Event) (m : Manager) : option Manager :=
  match spsc.send event (receiver_ m) with
  | Some ch => Some (set_receiver ch m)
  | None => None
  end.

Definition addPendingNodeConnection (from to : node_id) (t : ConnectionType)
    (m : Manager) : option Manager :=
  send_event (mkEvent t (payload_nodes from to)) m.

Definition addPendingParamConnection (from : node_id) (to : param_id)
    (t : ConnectionType) (m : Manager) : option Manager :=
  send_event (mkEvent t (payload_params from to)) m.

Definition addProcessingNode (node : node_id) (m : Manager) : option Manager :=
  send_event (mkEvent ADD (payload_node node)) m.

Definition addSourceNode (node : node_id) (m : Manager) : option Manager :=
  send_event (mkEvent ADD (payload_sourceNode node)) m.

Definition addAudioParam (param : param_id) (m : Manager) : option Manager :=
  send_event (mkEvent ADD (payload_audioParam param)) m.

(** *** Consumer side: event handlers *)

Definition handleConnectEvent (event : Event) (m : Manager) : Result Manager :=
  match payload event with
  | payload_nodes from to =>
      Ok (call (CallConnectNode from to) (connectNode from to) m)
  | payload_params from to =>
      Ok (call (CallConnectParam from to) (connectParam from to) m)
  | _ => Abort AssertionFailed
  end.

Definition handleDisconnectEvent (event : Event) (m : Manager) : Result Manager :=
  match payload event with
  | payload_nodes from to =>
      Ok (call (CallDisconnectNode from to) (disconnectNode from to) m)
  | payload_params from to =>
      Ok (call (CallDisconnectParam from to) (disconnectParam from to) m)
  | _ => Abort AssertionFailed
  end.

(** Iterators into [outputNodes_], a set: an iterator names the element it
    points at, [None] is [end()].  Erasing an element leaves the iterators
    to all other elements valid. *)
Definition iterator := option node_id.

Definition set_begin (l : list node_id) : iterator := hd_error l.

Fixpoint std_next (l : list node_id) (x : node_id) : iterator :=
  match l with
  | [] => None
  | y :: l' => if y =? x then hd_error l' else std_next l' x
  end.

Definition iterator_valid (l : list node_id) (x : node_id) : bool :=
  existsb (Nat.eqb x) l.

(** The [for] loop of [handleDisconnectAllEvent]; [fuel] bounds the number
    of iterations. *)
Fixpoint disconnectAll_loop (fuel : nat) (from : node_id) (it : iterator)
    (m : Manager) : Result Manager :=
  match it with
  | None => Ok m
  | Some x =>
      match fuel with
      | 0 => Abort OutOfFuel
      | S fuel' =>
          if iterator_valid (outputNodes_ (env m) from) x then
            let next := std_next (outputNodes_ (env m) from) x in
            disconnectAll_loop fuel' from next
              (call (CallDisconnectNode from x) (disconnectNode from x) m)
          else Abort InvalidIterator
      end
  end.

Definition handleDisconnectAllEvent (event : Event) (m : Manager) : Result Manager :=
  match payload event with
  | payload_nodes from _ =>
      disconnectAll_loop (length (outputNodes_ (env m) from)) from
        (set_begin (outputNodes_ (env m) from)) m
  | _ => Abort AssertionFailed
  end.

Definition handleAddToDeconstructionEvent (event : Event) (m : Manager) : Result Manager :=
  match payload event with
  | payload_node node =>
      Ok (set_processingNodes (processingNodes_ m ++ [node]) m)
  | payload_sourceNode sourceNode =>
      Ok (set_sourceNodes (sourceNodes_ m ++ [sourceNode]) m)
  | payload_audioParam audioParam =>
      Ok (set_audioParams (audioParams_ m ++ [audioParam]) m)
  | _ => Abort AssertionFailed
  end.

(** The [switch] of [settlePendingConnections]. *)
Definition dispatch (value : Event) (m : Manager) : Result Manager :=
  match type value with
  | CONNECT => handleConnectEvent value m
  | DISCONNECT => handleDisconnectEvent value m
  | DISCONNECT_ALL => handleDisconnectAllEvent value m
  | ADD => handleAddToDeconstructionEvent value m
  end.

(** The [while] loop of [settlePendingConnections]: poll, dispatch, until
    the poll reports CHANNEL_EMPTY. *)
Fixpoint settle_loop (fuel : nat) (m : Manager) : Result Manager :=
  match spsc.try_receive (receiver_ m) with
  | (spsc.SUCCESS, Some value, ch) =>
      match fuel with
      | 0 => Abort OutOfFuel
      | S fuel' =>
          m' <- dispatch value (set_receiver ch m) ;;
          settle_loop fuel' m'
      end
  | _ => Ok m
  end.

Definition settlePendingConnections (m : Manager) : Result Manager :=
  settle_loop (length (spsc.buffer (receiver_ m))) m.

(** *** Consumer side: the sweep *)

(** Modelled from the spec: the destructor's implementation is not among
    the sources.  Section 4.4: a non-blocking attempt to enqueue the
    handle into the destructor's channel, [false] if the channel is
    full. *)
Definition tryAddNodeForDeconstruction (n : node_id) (m : Manager) : bool * Manager :=
  match spsc.try_send n (nodeDeconstructor_ m) with
  | (spsc.SUCCESS, ch) =>
      (true, log (CallTryAddNodeForDeconstruction n true) (set_nodeDeconstructor ch m))
  | _ => (false, log (CallTryAddNodeForDeconstruction n false) m)
  end.

Definition qualifiesSource (m : Manager) (n : node_id) : bool :=
  (use_count m n =? 1) && (isUnscheduled (env m) n || isFinished (env m) n).

Definition qualifiesProcessing (m : Manager) (n : node_id) : bool :=
  use_count m n =? 1.

(** Body of the first [while] loop, for the entry the iterator points at.
    The boolean tells whether the entry is to be erased. *)
Definition visitSourceNode (n : node_id) (m : Manager) : bool * Manager :=
  if qualifiesSource m n then
    tryAddNodeForDeconstruction n (call (CallCleanup n) (node_cleanup n) m)
  else (false, m).

Definition visitProcessingNode (n : node_id) (m : Manager) : bool * Manager :=
  if qualifiesProcessing m n then
    tryAddNodeForDeconstruction n (call (CallCleanup n) (node_cleanup n) m)
  else (false, m).

(** The first loop.  The vector is [kept ++ rest] and the iterator stands
    at the head of [rest]: [kept] are the entries passed with [++it],
    [erase] removes the head of [rest] and leaves the iterator in place. *)
Fixpoint sweepSourceNodes (kept rest : list node_id) (m : Manager) : Manager :=
  match rest with
  | [] => m
  | n :: rest' =>
      let (erased, m') := visitSourceNode n m in
      if erased then sweepSourceNodes kept rest' (set_sourceNodes (kept ++ rest') m')
      else sweepSourceNodes (kept ++ [n]) rest' m'
  end.

Fixpoint sweepProcessingNodes (kept rest : list node_id) (m : Manager) : Manager :=
  match rest with
  | [] => m
  | n :: rest' =>
      let (erased, m') := visitProcessingNode n m in
      if erased then
        sweepProcessingNodes kept rest' (set_processingNodes (kept ++ rest') m')
      else sweepProcessingNodes (kept ++ [n]) rest' m'
  end.

(** The second half of the sweep, from the state the first loop left. *)
Definition sweepProcessing (m : Manager) : Manager :=
  sweepProcessingNodes [] (processingNodes_ m) m.

Definition prepareNodesForDestruction (m : Manager) : Manager :=
  sweepProcessing (sweepSourceNodes [] (sourceNodes_ m) m).

Definition preProcessGraph (m : Manager) : Result Manager :=
  m' <- settlePendingConnections m ;;
  Ok (prepareNodesForDestruction m').

(** *** Teardown *)

Definition cleanup_all (l : list node_id) (m : Manager) : Manager :=
  fold_left (fun acc n => call (CallCleanup n) (node_cleanup n) acc) l m.

(** AudioNodeManager::cleanup, run by the destructor of the manager. *)
Definition cleanup (m : Manager) : Manager :=
  let m1 := cleanup_all (sourceNodes_ m) m in
  let m2 := cleanup_all (processingNodes_ m1) m1 in
  set_audioParams [] (set_processingNodes [] (set_sourceNodes [] m2)).

(** *** The destructor's thread *)

(** Modelled from the spec: the destructor's implementation is not among
    the sources.  Section 4.4, background loop: on receipt of a handle the
    thread releases its hold on it.  One iteration that finds an item
    takes the oldest handle out of the channel; an empty channel makes it
    wait, nothing changes. *)
Definition AudioNodeDestructor_process (m : Manager) : Manager :=
  match spsc.try_receive (nodeDeconstructor_ m) with
  | (spsc.SUCCESS, _, ch) => set_nodeDeconstructor ch m
  | _ => m
  end.

(** ** Vocabulary of the statements *)

(** The two tracked vectors the sweep walks over. *)
Inductive TrackedSet := Sources | Processors.

Definition tracked (s : TrackedSet) (m : Manager) : list node_id :=
  match s with
  | Sources => sourceNodes_ m
  | Processors => processingNodes_ m
  end.

Definition set_tracked (s : TrackedSet) (l : list node_id) (m : Manager) : Manager :=
  match s with
  | Sources => set_sourceNodes l m
  | Processors => set_processingNodes l m
  end.

Definition qualifies (s : TrackedSet) (m : Manager) (n : node_id) : bool :=
  match s with
  | Sources => qualifiesSource m n
  | Processors => qualifiesProcessing m n
  end.

Definition visitNode (s : TrackedSet) (n : node_id) (m : Manager) : bool * Manager :=
  match s with
  | Sources => visitSourceNode n m
  | Processors => visitProcessingNode n m
  end.

(** Either loop of the sweep, by the vector it walks over. *)
Definition sweepNodes (s : TrackedSet) (kept rest : list node_id) (m : Manager) : Manager :=
  match s with
  | Sources => sweepSourceNodes kept rest m
  | Processors => sweepProcessingNodes kept rest m
  end.

(** The loop state in which the iterator has passed the entries [pre] and
    stands in front of the still unvisited entries [post]: the entries
    kept so far and the manager at that moment. *)
Fixpoint sweepPrefix (s : TrackedSet) (kept pre post : list node_id) (m : Manager)
    : list node_id * Manager :=
  match pre with
  | [] => (kept, m)
  | n :: pre' =>
      let (erased, m') := visitNode s n m in
      if erased then sweepPrefix s kept pre' post (set_tracked s (kept ++ pre' ++ post) m')
      else sweepPrefix s (kept ++ [n]) pre' post m'
  end.

(** The manager when a loop of a sweep started on [m] begins: the first
    loop starts on [m] itself, the second on what the first has left. *)
Definition loopStart (s : TrackedSet) (m : Manager) : Manager :=
  match s with
  | Sources => m
  | Processors => sweepSourceNodes [] (sourceNodes_ m) m
  end.

(** What remains of the sweep once the loop over [s] has ended. *)
Definition finishSweep (s : TrackedSet) (m : Manager) : Manager :=
  match s with
  | Sources => sweepProcessing m
  | Processors => m
  end.

(** Tracked entries that hold node [n]. *)
Definition entries (m : Manager) (n : node_id) : nat :=
  count_occ Nat.eq_dec (sourceNodes_ m) n + count_occ Nat.eq_dec (processingNodes_ m) n.

(** Calls that belong to the teardown of [n]. *)
Definition about (n : node_id) (c : Call) : bool :=
  match c with
  | CallCleanup x => x =? n
  | CallTryAddNodeForDeconstruction x _ => x =? n
  | _ => false
  end.

Definition teardown_calls (n : node_id) (t : list Call) : list Call :=
  filter (about n) t.

(** An event whose payload is one its handler accepts. *)
Definition event_ok (event : Event) : bool :=
  match type event, payloadType event with
  | CONNECT, (NODES | PARAMS) => true
  | DISCONNECT, (NODES | PARAMS) => true
  | DISCONNECT_ALL, NODES => true
  | ADD, (NODE | SOURCE_NODE | AUDIO_PARAM) => true
  | _, _ => false
  end.

(** The producer issues its requests one after the other. *)
Fixpoint send_all (events : list Event) (m : Manager) : option Manager :=
  match events with
  | [] => Some m
  | event :: events' =>
      match send_event event m with
      | Some m' => send_all events' m'
      | None => None
      end
  end.

(** The spec's words for the drain: the events are dispatched one by one in
    the order of the list; while an event is handled the channel holds the
    events behind it. *)
Fixpoint dispatch_in_enqueue_order (events : list Event) (m : Manager) : Result Manager :=
  match events with
  | [] => Ok m
  | event :: events' =>
      m' <- dispatch event
              (set_receiver (spsc.mkChannel (spsc.capacity (receiver_ m)) events') m) ;;
      dispatch_in_enqueue_order events' m'
  end.

(** The outgoing edges of a node form a set, and [disconnectNode] erases
    the named edge from it and touches no other edge of that node. *)
Definition outputs_are_sets : Prop :=
  forall (w : W) (a : node_id), NoDup (outputNodes_ w a).

Definition disconnectNode_erases : Prop :=
  forall (w : W) (a x : node_id),
    outputNodes_ (disconnectNode a x w) a = remove Nat.eq_dec x (outputNodes_ w a).

(** [k] sweeps in each of which the entry of [n] in the vector [s]
    qualifies for teardown when the iterator reaches it.  Between two of
    these sweeps anything may happen, the drain of the next render quantum
    with the calls of its handlers included, as long as no cleanup and no
    retire attempt on [n] is issued there. *)
Inductive qualifying_sweeps (s : TrackedSet) (n : node_id)
    : nat -> Manager -> Manager -> Prop :=
| qualifying_sweeps_0 : forall m, qualifying_sweeps s n 0 m m
| qualifying_sweeps_S : forall k m pre post kept mv m1 m',
    tracked s (loopStart s m) = pre ++ n :: post ->
    sweepPrefix s [] pre (n :: post) (loopStart s m) = (kept, mv) ->
    qualifies s mv n = true ->
    teardown_calls n (trace m1)
    = teardown_calls n (trace (prepareNodesForDestruction m)) ->
    qualifying_sweeps s n k m1 m' ->
    qualifying_sweeps s n (S k) m m'.

(** No call in [d] belongs to the teardown of [n]. *)
Definition quiet (n : node_id) (d : list Call) : Prop :=
  Forall (fun c => about n c = false) d.

(** The manager after [AudioNode::cleanup] was invoked on [n]. *)
Definition cleaned (n : node_id) (m : Manager) : Manager :=
  call (CallCleanup n) (node_cleanup n) m.

(** What the visit of one entry leaves alone and what it adds. *)
Record visit_effect (n : node_id) (erased : bool) (m m' : Manager) : Prop := {
  ve_receiver : receiver_ m' = receiver_ m;
  ve_sources : sourceNodes_ m' = sourceNodes_ m;
  ve_processors : processingNodes_ m' = processingNodes_ m;
  ve_params : audioParams_ m' = audioParams_ m;
  ve_capacity :
    spsc.capacity (nodeDeconstructor_ m') = spsc.capacity (nodeDeconstructor_ m);
  ve_retired :
    spsc.buffer (nodeDeconstructor_ m')
    = spsc.buffer (nodeDeconstructor_ m) ++ (if erased then [n] else []);
  ve_trace :
    trace m' = trace m \/
    trace m' = trace m ++ [CallCleanup n; CallTryAddNodeForDeconstruction n erased]
}.

(** What a handler leaves alone: the two channels; the tracked vectors
    only grow at their ends; the trace only grows. *)
Record handler_effect (m m' : Manager) : Prop := {
  he_receiver : receiver_ m' = receiver_ m;
  he_destructor : nodeDeconstructor_ m' = nodeDeconstructor_ m;
  he_sources : exists a, sourceNodes_ m' = sourceNodes_ m ++ a;
  he_processors : exists a, processingNodes_ m' = processingNodes_ m ++ a;
  he_params : exists a, audioParams_ m' = audioParams_ m ++ a;
  he_trace : exists d, trace m' = trace m ++ d
}.

(** *** The claims that do not hold, as propositions *)

(** Scenario A as the spec words it. *)
Definition scenario_A (m0 : Manager) (s : node_id) (p : param_id) : Prop :=
  forall m1 m2 m3,
    spsc.buffer (receiver_ m0) = [] ->
    addSourceNode s m0 = Some m1 ->
    addPendingParamConnection s p CONNECT m1 = Some m2 ->
    preProcessGraph m2 = Ok m3 ->
    In s (sourceNodes_ m3) /\ In (CallConnectParam s p) (trace m3).


(** Set semantics of ADD as the spec words it. *)
Definition add_has_set_semantics (m : Manager) (event : Event) : Prop :=
  forall m', handleAddToDeconstructionEvent event m = Ok m' ->
    (forall n, count_occ Nat.eq_dec (sourceNodes_ m') n <= 1) /\
    (forall n, count_occ Nat.eq_dec (processingNodes_ m') n <= 1) /\
    (forall p, count_occ Nat.eq_dec (audioParams_ m') p <= 1).

(** ** Vocabulary of the further statements *)

(** A retire attempt of a sweep: the node and the destructor's answer. *)
Definition Attempt := (node_id * bool)%type.

(** The calls of one attempt: cleanup, then the offer to the destructor. *)
Definition attempt_calls (a : Attempt) : list Call :=
  [CallCleanup (fst a); CallTryAddNodeForDeconstruction (fst a) (snd a)].

(** The nodes whose handle the destructor accepted, in the order of the
    attempts. *)
Definition retired (attempts : list Attempt) : list node_id :=
  map fst (filter snd attempts).

(** The graph after the cleanups of the attempts, in their order. *)
Definition cleanups (attempts : list Attempt) (w : W) : W :=
  fold_left (fun acc a => node_cleanup (fst a) acc) attempts w.

(** The handles that the ADD events of a queue carry, by the vector they
    go to, in the order of the queue. *)
Definition registered_sources (events : list Event) : list node_id :=
  flat_map (fun event =>
              match type event, payload event with
              | ADD, payload_sourceNode sourceNode => [sourceNode]
              | _, _ => []
              end) events.

Definition registered_processors (events : list Event) : list node_id :=
  flat_map (fun event =>
              match type event, payload event with
              | ADD, payload_node node => [node]
              | _, _ => []
              end) events.

Definition registered_params (events : list Event) : list param_id :=
  flat_map (fun event =>
              match type event, payload event with
              | ADD, payload_audioParam audioParam => [audioParam]
              | _, _ => []
              end) events.

(** The calls a handler issues for an event on the graph [w], and the
    graph it leaves: one connect or disconnect call for a CONNECT or
    DISCONNECT event, one [disconnectNode] per outgoing edge, in the order
    of the iteration, for DISCONNECT_ALL, none for ADD. *)
Definition handler_calls (w : W) (event : Event) : list Call :=
  match type event, payload event with
  | CONNECT, payload_nodes from to => [CallConnectNode from to]
  | CONNECT, payload_params from to => [CallConnectParam from to]
  | DISCONNECT, payload_nodes from to => [CallDisconnectNode from to]
  | DISCONNECT, payload_params from to => [CallDisconnectParam from to]
  | DISCONNECT_ALL, payload_nodes from _ =>
      map (CallDisconnectNode from) (outputNodes_ w from)
  | _, _ => []
  end.

Definition handler_graph (w : W) (event : Event) : W :=
  match type event, payload event with
  | CONNECT, payload_nodes from to => connectNode from to w
  | CONNECT, payload_params from to => connectParam from to w
  | DISCONNECT, payload_nodes from to => disconnectNode from to w
  | DISCONNECT, payload_params from to => disconnectParam from to w
  | DISCONNECT_ALL, payload_nodes from _ =>
      fold_left (fun acc x => disconnectNode from x acc) (outputNodes_ w from) w
  | _, _ => w
  end.

(** The calls and the graph of a queue of events handled in its order,
    each event on the graph the events before it have left. *)
Fixpoint drain_calls (w : W) (events : list Event) : list Call :=
  match events with
  | [] => []
  | event :: events' =>
      handler_calls w event ++ drain_calls (handler_graph w event) events'
  end.

Fixpoint drain_graph (w : W) (events : list Event) : W :=
  match events with
  | [] => w
  | event :: events' => drain_graph (handler_graph w event) events'
  end.

(** [k] sweeps in a row. *)
Definition sweeps (k : nat) (m : Manager) : Manager :=
  Nat.iter k prepareNodesForDestruction m.

(** No tracked entry passes the test of its loop. *)
Definition no_entry_qualifies (m : Manager) : Prop :=
  (forall n, In n (sourceNodes_ m) -> qualifiesSource m n = false) /\
  (forall n, In n (processingNodes_ m) -> qualifiesProcessing m n = false).

End Manager.

Arguments Manager W : clear implicits.

(** ** The earlier revision of the manager

    The second source text holds an earlier revision of the same file.  It
    differs from the current one in four places, embedded here: the tracked
    collections are sets filled with [insert], the connection handlers
    accept node pairs only, the sweep erases a qualifying entry whatever the
    destructor answered, and [cleanup] leaves [audioParams_] alone. *)

Module Legacy.
Section Legacy.

Context {W : Type} `{AudioGraph W}.

(** [insert] into a set of handles: an element already present stays, a
    new one is added. *)
Definition set_insert (x : nat) (l : list nat) : list nat :=
  if existsb (Nat.eqb x) l then l else l ++ [x].

Definition handleConnectEvent (event : Event) (m : Manager W) : Result (Manager W) :=
  match payload event with
  | payload_nodes from to =>
      Ok (call (CallConnectNode from to) (connectNode from to) m)
  | _ => Abort AssertionFailed
  end.

Definition handleDisconnectEvent (event : Event) (m : Manager W) : Result (Manager W) :=
  match payload event with
  | payload_nodes from to =>
      Ok (call (CallDisconnectNode from to) (disconnectNode from to) m)
  | _ => Abort AssertionFailed
  end.

Definition handleAddEvent (event : Event) (m : Manager W) : Result (Manager W) :=
  match payload event with
  | payload_node node =>
      Ok (set_processingNodes (set_insert node (processingNodes_ m)) m)
  | payload_sourceNode sourceNode =>
      Ok (set_sourceNodes (set_insert sourceNode (sourceNodes_ m)) m)
  | payload_audioParam audioParam =>
      Ok (set_audioParams (set_insert audioParam (audioParams_ m)) m)
  | _ => Abort AssertionFailed
  end.

(** [addNodeForDeconstruction] of the destructor is declared in the header
    only; it is a parameter here.  [cleanupNode] drops its answer. *)
Variable addNodeForDeconstruction : node_id -> Manager W -> bool * Manager W.

Definition cleanupNode (node : node_id) (m : Manager W) : Manager W :=
  snd (addNodeForDeconstruction node (call (CallCleanup node) (node_cleanup node) m)).

(** Body of the first loop of the earlier [prepareNodesForDestruction]. *)
Definition visitSourceNode (n : node_id) (m : Manager W) : bool * Manager W :=
  if qualifiesSource m n then (true, cleanupNode n m) else (false, m).

Definition cleanup (m : Manager W) : Manager W :=
  let m1 := cleanup_all (sourceNodes_ m) m in
  let m2 := cleanup_all (processingNodes_ m1) m1 in
  set_processingNodes [] (set_sourceNodes [] m2).

End Legacy.
End Legacy.

(** ** A concrete graph

    Modelled from the spec: [AudioNode.h], [AudioScheduledSourceNode.h] and
    [AudioParam.h] are not among the sources.  Section 3: a node has a set
    of outgoing connections to nodes and to parameters, a cleanup that
    severs its internal references, an observable count of outside owners
    and, as a source node, a playback state.  The examples below run the
    manager on this graph. *)

Module SpecGraph.

Record NodeObject := mkNode {
  owners : nat;
  state : PlaybackState;
  outputs : list node_id;
  outputParams : list param_id
}.

Definition World := node_id -> NodeObject.

Definition update (n : node_id) (f : NodeObject -> NodeObject) (w : World) : World :=
  fun k => if k =? n then f (w k) else w k.

Definition add_edge (x : nat) (l : list nat) : list nat :=
  if existsb (Nat.eqb x) l then l else l ++ [x].

Definition with_outputs (l : list node_id) (o : NodeObject) : NodeObject :=
  mkNode (owners o) (state o) l (outputParams o).

Definition with_outputParams (l : list param_id) (o : NodeObject) : NodeObject :=
  mkNode (owners o) (state o) (outputs o) l.

#[global] Instance graph : AudioGraph World := {
  external_owners w n := owners (w n);
  playbackState w n := state (w n);
  outputNodes_ w n := nodup Nat.eq_dec (outputs (w n));
  node_cleanup n w := update n (fun o => mkNode (owners o) (state o) [] []) w;
  connectNode a b w := update a (fun o => with_outputs (add_edge b (outputs o)) o) w;
  disconnectNode a b w :=
    update a (fun o => with_outputs (remove Nat.eq_dec b (outputs o)) o) w;
  connectParam a p w :=
    update a (fun o => with_outputParams (add_edge p (outputParams o)) o) w;
  disconnectParam a p w :=
    update a (fun o => with_outputParams (remove Nat.eq_dec p (outputParams o)) o) w
}.

(** Every node unowned outside the manager, in the given playback state,
    without edges. *)
Definition idle (st : PlaybackState) : World := fun _ => mkNode 0 st [] [].

(** Node 1 feeds the nodes 2, 3 and 4; every node has one outside owner. *)
Definition fan_out : World :=
  fun k => if k =? 1 then mkNode 1 PLAYING [2; 3; 4] [] else mkNode 1 UNSCHEDULED [] [].

(** A manager as constructed: mutation channel of 1024 events (the
    capacity of the earlier revision), destructor channel of the given
    capacity. *)
Definition manager (w : World) (destructorCapacity : nat) : Manager World :=
  AudioNodeManager_new w 1024 destructorCapacity.

Definition run (r : option (Manager World)) (f : Manager World -> option (Manager World))
    : option (Manager World) :=
  match r with
  | Some m => f m
  | None => None
  end.

Definition render (r : option (Manager World)) : option (Manager World) :=
  match r with
  | Some m => match preProcessGraph m with Ok m' => Some m' | Abort _ => None end
  | None => None
  end.

Definition force (r : option (Manager World)) (d : Manager World) : Manager World :=
  match r with
  | Some m => m
  | None => d
  end.

(** Scenario A on an unscheduled source node that nothing outside the
    manager owns: the requests are queued, no render quantum has run. *)
Definition scenario_A_start : Manager World := manager (idle UNSCHEDULED) 16.


(** Source node 1 is tracked; an ADD event for node 1 arrives again. *)
Definition tracked_once : Manager World :=
  set_sourceNodes [1] (manager (idle PLAYING) 16).

(** A finished source node 5 that only the manager owns, tracked, while
    the destructor's channel (capacity 1) is occupied by node 9. *)
Definition destructor_busy : Manager World :=
  set_nodeDeconstructor (spsc.mkChannel 1 [9])
    (set_sourceNodes [5] (manager (idle FINISHED) 1)).

(** A finished source node 1 that only the manager owns, registered
    twice. *)
Definition tracked_twice : Manager World :=
  set_sourceNodes [1; 1] (manager (idle FINISHED) 16).

(** [destructor_busy] one render quantum later, when its second sweep
    begins: the first sweep has run, the destructor's thread has taken
    node 9 out, the control thread has asked to connect node 1 to node 2,
    and the drain of the second quantum has applied that request. *)
Definition second_quantum_start : Manager World :=
  match run (Some (AudioNodeDestructor_process
                     (prepareNodesForDestruction destructor_busy)))
            (addPendingNodeConnection 1 2 CONNECT) with
  | Some m => match settlePendingConnections m with
              | Ok m' => m'
              | Abort _ => m
              end
  | None => destructor_busy
  end.

(** On the graph [fan_out]: register source node 5, connect node 1 to
    it, disconnect all outputs of node 1, register parameter 7. *)
Definition fan_out_requests : list Event :=
  [mkEvent ADD (payload_sourceNode 5);
   mkEvent CONNECT (payload_nodes 1 5);
   mkEvent DISCONNECT_ALL (payload_nodes 1 0);
   mkEvent ADD (payload_audioParam 7)].

(** The manager of scenario A with one request in its channel that no
    handler accepts: ADD with a node pair. *)
Definition misfit_queued : Manager World :=
  force (addPendingNodeConnection 1 2 ADD scenario_A_start) scenario_A_start.

(** Three registrations and a connection, queued in this order. *)
Definition registrations_queued : Manager World :=
  force (send_all [mkEvent ADD (payload_sourceNode 1);
                   mkEvent ADD (payload_audioParam 7);
                   mkEvent ADD (payload_node 2);
                   mkEvent ADD (payload_sourceNode 3)]
           scenario_A_start) scenario_A_start.

(** Node 1 with its three outgoing edges, tracked as a source node. *)
Definition fan_out_manager : Manager World :=
  set_sourceNodes [1] (manager fan_out 16).

End SpecGraph.

(** ** A graph that breaks the saved iterator

    An implementation of the interface whose [disconnectNode] severs all
    outgoing edges of the node at once, so that the iterator
    [handleDisconnectAllEvent] saved before the call points at an erased
    element after it. *)

Module CascadeGraph.

Definition World := node_id -> list node_id.

#[global] Instance graph : AudioGraph World := {
  external_owners _ _ := 1;
  playbackState _ _ := PLAYING;
  outputNodes_ w n := w n;
  node_cleanup _ w := w;
  connectNode a b w := fun k => if k =? a then w k ++ [b] else w k;
  disconnectNode a _ w := fun k => if k =? a then [] else w k;
  connectParam _ _ w := w;
  disconnectParam _ _ w := w
}.

(** Node 1 feeds the nodes 2 and 3. *)
Definition two_edges : World := fun k => if k =? 1 then [2; 3] else [].

Definition manager : Manager World := AudioNodeManager_new two_edges 1024 16.

End CascadeGraph.
(** * Properties *)

Unset Implicit Arguments.

Section Properties.

Context {W : Type} `{AudioGraph W}.

Implicit Types (m : Manager W) (n x : node_id) (s : TrackedSet).


(** ** Calls and traces *)

Lemma quiet_teardown_calls n t d :
  quiet n d -> teardown_calls n (t ++ d) = teardown_calls n t.
Proof.
  intros Hq. unfold teardown_calls. rewrite filter_app.
  replace (filter (about n) d) with (@nil Call); [apply app_nil_r|].
  induction Hq as [|c d Hc _ IH]; simpl; [reflexivity|].
  rewrite Hc. exact IH.
Qed.

Lemma cleanup_calls_app n t d :
  cleanup_calls n (t ++ d) = cleanup_calls n t + cleanup_calls n d.
Proof. unfold cleanup_calls. rewrite filter_app, length_app. reflexivity. Qed.

Lemma quiet_cleanup_calls n d : quiet n d -> cleanup_calls n d = 0.
Proof.
  unfold cleanup_calls.
  induction 1 as [|c d Hc _ IH]; simpl; [reflexivity|].
  destruct c; simpl in *; try exact IH. rewrite Hc. exact IH.
Qed.

Lemma quiet_app n d1 d2 : quiet n d1 -> quiet n d2 -> quiet n (d1 ++ d2).
Proof. intros H1 H2. apply Forall_app. now split. Qed.

Lemma cleanup_calls_map n l :
  cleanup_calls n (map CallCleanup l) = count_occ Nat.eq_dec l n.
Proof.
  unfold cleanup_calls. induction l as [|x l IH]; simpl; [reflexivity|].
  destruct (Nat.eq_dec x n) as [->|Hne].
  - rewrite Nat.eqb_refl. simpl. now rewrite IH.
  - apply Nat.eqb_neq in Hne. rewrite Hne. exact IH.
Qed.

(** ** The destructor's channel *)

Lemma tryAdd_full n m :
  spsc.is_full (nodeDeconstructor_ m) = true ->
  tryAddNodeForDeconstruction n m
  = (false, log (CallTryAddNodeForDeconstruction n false) m).
Proof.
  intros Hf. unfold tryAddNodeForDeconstruction, spsc.try_send.
  now rewrite Hf.
Qed.

Lemma tryAdd_room n m :
  spsc.is_full (nodeDeconstructor_ m) = false ->
  tryAddNodeForDeconstruction n m
  = (true, log (CallTryAddNodeForDeconstruction n true)
             (set_nodeDeconstructor
                (spsc.mkChannel (spsc.capacity (nodeDeconstructor_ m))
                   (spsc.buffer (nodeDeconstructor_ m) ++ [n])) m)).
Proof.
  intros Hf. unfold tryAddNodeForDeconstruction, spsc.try_send.
  now rewrite Hf.
Qed.

(** ** One entry of a tracked vector *)

Lemma visitNode_skip s n m :
  qualifies s m n = false -> visitNode s n m = (false, m).
Proof.
  destruct s; simpl; unfold visitSourceNode, visitProcessingNode;
    intros ->; reflexivity.
Qed.

Lemma visitNode_take s n m :
  qualifies s m n = true ->
  visitNode s n m = tryAddNodeForDeconstruction n (cleaned n m).
Proof.
  destruct s; simpl; unfold visitSourceNode, visitProcessingNode;
    intros ->; reflexivity.
Qed.

Lemma visitNode_effect s n m erased m' :
  visitNode s n m = (erased, m') -> visit_effect n erased m m'.
Proof.
  intros Hv. destruct (qualifies s m n) eqn:Hq.
  - rewrite (visitNode_take _ _ _ Hq) in Hv.
    destruct (spsc.is_full (nodeDeconstructor_ (cleaned n m))) eqn:Hf.
    + rewrite (tryAdd_full _ _ Hf) in Hv. inversion Hv; subst; clear Hv.
      constructor; simpl; try reflexivity.
      * now rewrite app_nil_r.
      * right. now rewrite <- app_assoc.
    + rewrite (tryAdd_room _ _ Hf) in Hv. inversion Hv; subst; clear Hv.
      constructor; simpl; try reflexivity.
      right. now rewrite <- app_assoc.
  - rewrite (visitNode_skip _ _ _ Hq) in Hv. inversion Hv; subst; clear Hv.
    constructor; try reflexivity.
    + now rewrite app_nil_r.
    + now left.
Qed.

Lemma tracked_visit s s' n m erased m' :
  visitNode s n m = (erased, m') -> tracked s' m' = tracked s' m.
Proof.
  intros Hv. apply visitNode_effect in Hv. destruct Hv.
  destruct s'; simpl; assumption.
Qed.

(** ** Reference counts *)

Lemma entries_le_use_count m n : entries m n <= use_count m n.
Proof. unfold entries, use_count. lia. Qed.

Lemma crowded_not_qualifies s m n : 2 <= entries m n -> qualifies s m n = false.
Proof.
  intros He. pose proof (entries_le_use_count m n) as Hle.
  assert (Hc : (use_count m n =? 1) = false) by (apply Nat.eqb_neq; lia).
  destruct s; simpl; unfold qualifiesSource, qualifiesProcessing; now rewrite Hc.
Qed.

Lemma qualifies_use_count s m n : qualifies s m n = true -> use_count m n = 1.
Proof.
  destruct s; simpl; unfold qualifiesSource, qualifiesProcessing; intros Hq.
  - apply andb_prop in Hq. now apply Nat.eqb_eq.
  - now apply Nat.eqb_eq.
Qed.

Lemma count_occ_tracked_le_entries s m n :
  count_occ Nat.eq_dec (tracked s m) n <= entries m n.
Proof. unfold entries. destruct s; simpl; lia. Qed.

(** ** The loops of the sweep *)

Lemma sweepNodes_nil s kept m : sweepNodes s kept [] m = m.
Proof. destruct s; reflexivity. Qed.

Lemma sweepNodes_cons s kept n rest m :
  sweepNodes s kept (n :: rest) m
  = (if fst (visitNode s n m)
     then sweepNodes s kept rest (set_tracked s (kept ++ rest) (snd (visitNode s n m)))
     else sweepNodes s (kept ++ [n]) rest (snd (visitNode s n m))).
Proof.
  destruct s; simpl.
  - destruct (visitSourceNode n m) as [[|] m']; reflexivity.
  - destruct (visitProcessingNode n m) as [[|] m']; reflexivity.
Qed.

Lemma sweepPrefix_cons s kept n pre post m :
  sweepPrefix s kept (n :: pre) post m
  = (if fst (visitNode s n m)
     then sweepPrefix s kept pre post
            (set_tracked s (kept ++ pre ++ post) (snd (visitNode s n m)))
     else sweepPrefix s (kept ++ [n]) pre post (snd (visitNode s n m))).
Proof. simpl. destruct (visitNode s n m) as [[|] m']; reflexivity. Qed.

(** The loop over [pre ++ post] passes through the loop state that
    [sweepPrefix] computes. *)
Lemma sweepNodes_prefix s pre : forall kept post m,
  sweepNodes s kept (pre ++ post) m
  = sweepNodes s (fst (sweepPrefix s kept pre post m)) post
      (snd (sweepPrefix s kept pre post m)).
Proof.
  induction pre as [|n pre IH]; intros kept post m.
  - reflexivity.
  - rewrite <- app_comm_cons, sweepNodes_cons, sweepPrefix_cons.
    destruct (fst (visitNode s n m)); apply IH.
Qed.

Lemma sweepNodes_as_prefix s kept rest m :
  sweepNodes s kept rest m = snd (sweepPrefix s kept rest [] m).
Proof.
  rewrite <- (app_nil_r rest) at 1.
  rewrite sweepNodes_prefix. apply sweepNodes_nil.
Qed.

Lemma tracked_set_tracked s l m : tracked s (set_tracked s l m) = l.
Proof. destruct s; reflexivity. Qed.

Lemma tracked_set_tracked_other s s' l m :
  s' <> s -> tracked s' (set_tracked s l m) = tracked s' m.
Proof. destruct s, s'; intros Hne; try reflexivity; now elim Hne. Qed.

Lemma entries_set_tracked s l m n :
  count_occ Nat.eq_dec l n = count_occ Nat.eq_dec (tracked s m) n ->
  entries (set_tracked s l m) n = entries m n.
Proof. unfold entries. destruct s; simpl; intros ->; reflexivity. Qed.

Lemma entries_visit s x m erased m' n :
  visitNode s x m = (erased, m') -> entries m' n = entries m n.
Proof.
  intros Hv. apply visitNode_effect in Hv. destruct Hv.
  unfold entries. congruence.
Qed.

(** Shape of the vector in a loop state. *)
Lemma sweepPrefix_tracked s pre : forall kept post m k m1,
  tracked s m = kept ++ pre ++ post ->
  sweepPrefix s kept pre post m = (k, m1) ->
  tracked s m1 = k ++ post.
Proof.
  induction pre as [|n pre IH]; intros kept post m k m1 Ht Hp.
  - simpl in Hp. inversion Hp; subst. exact Ht.
  - rewrite sweepPrefix_cons in Hp.
    destruct (visitNode s n m) as [erased m'] eqn:Hv. simpl in Hp.
    destruct erased.
    + eapply IH; [|exact Hp]. apply tracked_set_tracked.
    + eapply IH; [|exact Hp].
      rewrite (tracked_visit _ s _ _ _ _ Hv), Ht, <- app_assoc. reflexivity.
Qed.

Lemma sweepPrefix_kept s pre : forall kept post m k m1,
  sweepPrefix s kept pre post m = (k, m1) ->
  exists l, k = kept ++ l /\ incl l pre.
Proof.
  induction pre as [|n pre IH]; intros kept post m k m1 Hp.
  - simpl in Hp. inversion Hp; subst. exists []. split.
    + now rewrite app_nil_r.
    + apply incl_nil_l.
  - rewrite sweepPrefix_cons in Hp.
    destruct (fst (visitNode s n m)).
    + destruct (IH _ _ _ _ _ Hp) as (l & -> & Hl). exists l. split; [reflexivity|].
      now apply incl_tl.
    + destruct (IH _ _ _ _ _ Hp) as (l & -> & Hl). exists (n :: l). split.
      * now rewrite <- app_assoc.
      * apply incl_cons; [now left|now apply incl_tl].
Qed.

(** What a stretch of visits leaves alone. *)
Lemma sweepPrefix_frame s pre : forall kept post m k m1,
  sweepPrefix s kept pre post m = (k, m1) ->
  receiver_ m1 = receiver_ m /\
  audioParams_ m1 = audioParams_ m /\
  (forall s', s' <> s -> tracked s' m1 = tracked s' m) /\
  spsc.capacity (nodeDeconstructor_ m1) = spsc.capacity (nodeDeconstructor_ m) /\
  (exists r, spsc.buffer (nodeDeconstructor_ m1)
             = spsc.buffer (nodeDeconstructor_ m) ++ r) /\
  (exists d, trace m1 = trace m ++ d).
Proof.
  induction pre as [|n pre IH]; intros kept post m k m1 Hp.
  - simpl in Hp. inversion Hp; subst.
    repeat split; try reflexivity; exists []; now rewrite app_nil_r.
  - rewrite sweepPrefix_cons in Hp.
    destruct (visitNode s n m) as [erased m'] eqn:Hv. simpl in Hp.
    pose proof (visitNode_effect _ _ _ _ _ Hv) as E.
    assert (Hd : exists d, trace m' = trace m ++ d).
    { destruct (ve_trace E) as [Ht|Ht]; rewrite Ht; eauto.
      exists []. now rewrite app_nil_r. }
    destruct Hd as (d0 & Hd0).
    destruct erased;
      destruct (IH _ _ _ _ _ Hp) as (Hr & Ha & Ho & Hc & (r & Hb) & (d & Hd));
      (split; [|split; [|split; [|split; [|split]]]]).
    + rewrite Hr. destruct s; simpl; apply (ve_receiver E).
    + rewrite Ha. destruct s; simpl; apply (ve_params E).
    + intros s' Hne. rewrite (Ho s' Hne), tracked_set_tracked_other by exact Hne.
      apply (tracked_visit _ s' _ _ _ _ Hv).
    + rewrite Hc. destruct s; simpl; apply (ve_capacity E).
    + exists ([n] ++ r). rewrite Hb.
      replace (spsc.buffer (nodeDeconstructor_ (set_tracked s (kept ++ pre ++ post) m')))
        with (spsc.buffer (nodeDeconstructor_ m')) by (destruct s; reflexivity).
      rewrite (ve_retired E). now rewrite <- app_assoc.
    + exists (d0 ++ d). rewrite Hd.
      replace (trace (set_tracked s (kept ++ pre ++ post) m'))
        with (trace m') by (destruct s; reflexivity).
      rewrite Hd0. now rewrite <- app_assoc.
    + rewrite Hr. apply (ve_receiver E).
    + rewrite Ha. apply (ve_params E).
    + intros s' Hne. rewrite (Ho s' Hne). apply (tracked_visit _ s' _ _ _ _ Hv).
    + rewrite Hc. apply (ve_capacity E).
    + exists r. rewrite Hb, (ve_retired E). now rewrite app_nil_r.
    + exists (d0 ++ d). rewrite Hd, Hd0. now rewrite <- app_assoc.
Qed.

(** An entry of [n] that is visited while another tracked entry holds [n]
    is passed over: a stretch of visits in which this is so for every
    entry of [n] issues no call on [n] and keeps all entries of [n]. *)
Lemma sweepPrefix_quiet s n pre : forall kept post m k m1,
  tracked s m = kept ++ pre ++ post ->
  (In n pre -> 2 <= entries m n) ->
  sweepPrefix s kept pre post m = (k, m1) ->
  (exists d, trace m1 = trace m ++ d /\ quiet n d) /\
  entries m1 n = entries m n /\
  count_occ Nat.eq_dec k n = count_occ Nat.eq_dec (kept ++ pre) n.
Proof.
  induction pre as [|x pre IH]; intros kept post m k m1 Ht Hc Hp.
  - simpl in Hp. inversion Hp; subst. split; [|split].
    + exists []. split; [now rewrite app_nil_r|constructor].
    + reflexivity.
    + now rewrite app_nil_r.
  - rewrite sweepPrefix_cons in Hp.
    destruct (Nat.eq_dec x n) as [->|Hne].
    + (* an entry of [n]: another entry exists, the visit does nothing *)
      assert (Hq : qualifies s m n = false)
        by (apply crowded_not_qualifies, Hc; now left).
      rewrite (visitNode_skip _ _ _ Hq) in Hp. simpl in Hp.
      destruct (IH (kept ++ [n]) post m k m1) as (Hd & He & Hk).
      * rewrite Ht, <- app_assoc. reflexivity.
      * intros _. apply Hc. now left.
      * exact Hp.
      * split; [exact Hd|split; [exact He|]].
        rewrite Hk, <- app_assoc. reflexivity.
    + (* an entry of another node *)
      destruct (visitNode s x m) as [erased m'] eqn:Hv. simpl in Hp.
      pose proof (visitNode_effect _ _ _ _ _ Hv) as E.
      assert (Hd0 : exists d0, trace m' = trace m ++ d0 /\ quiet n d0).
      { destruct (ve_trace E) as [Hd|Hd]; rewrite Hd.
        - exists []. split; [now rewrite app_nil_r|constructor].
        - eexists. split; [reflexivity|].
          apply Nat.eqb_neq in Hne.
          repeat constructor; simpl; exact Hne. }
      destruct Hd0 as (d0 & Hd0 & Hq0).
      assert (Hcnt : count_occ Nat.eq_dec (kept ++ x :: pre) n
                     = count_occ Nat.eq_dec (kept ++ pre) n).
      { rewrite !count_occ_app. simpl.
        destruct (Nat.eq_dec x n); [contradiction|reflexivity]. }
      destruct erased.
      * set (m2 := set_tracked s (kept ++ pre ++ post) m') in *.
        assert (He2 : entries m2 n = entries m n).
        { unfold m2. rewrite entries_set_tracked.
          - apply (entries_visit _ _ _ _ _ n Hv).
          - rewrite (tracked_visit _ s _ _ _ _ Hv), Ht.
            rewrite !count_occ_app. simpl.
            destruct (Nat.eq_dec x n); [contradiction|].
            now rewrite ?count_occ_app. }
        destruct (IH kept post m2 k m1) as ((d & Hd & Hq) & He & Hk).
        -- apply tracked_set_tracked.
        -- intros Hin. rewrite He2. apply Hc. now right.
        -- exact Hp.
        -- split; [|split].
           ++ exists (d0 ++ d). split.
              ** rewrite Hd. replace (trace m2) with (trace m')
                   by (unfold m2; destruct s; reflexivity).
                 rewrite Hd0. now rewrite <- app_assoc.
              ** now apply quiet_app.
           ++ now rewrite He.
           ++ now rewrite Hk, Hcnt.
      * assert (He2 : entries m' n = entries m n) by apply (entries_visit _ _ _ _ _ n Hv).
        destruct (IH (kept ++ [x]) post m' k m1) as ((d & Hd & Hq) & He & Hk).
        -- rewrite (tracked_visit _ s _ _ _ _ Hv), Ht, <- app_assoc. reflexivity.
        -- intros Hin. rewrite He2. apply Hc. now right.
        -- exact Hp.
        -- split; [|split].
           ++ exists (d0 ++ d). split.
              ** rewrite Hd, Hd0. now rewrite <- app_assoc.
              ** now apply quiet_app.
           ++ now rewrite He.
           ++ rewrite Hk, <- app_assoc. reflexivity.
Qed.

Lemma sweepNodes_quiet s n kept rest m :
  tracked s m = kept ++ rest ->
  (In n rest -> 2 <= entries m n) ->
  (exists d, trace (sweepNodes s kept rest m) = trace m ++ d /\ quiet n d) /\
  entries (sweepNodes s kept rest m) n = entries m n /\
  count_occ Nat.eq_dec (tracked s (sweepNodes s kept rest m)) n
  = count_occ Nat.eq_dec (kept ++ rest) n.
Proof.
  intros Ht Hc. rewrite sweepNodes_as_prefix.
  destruct (sweepPrefix s kept rest [] m) as [k m1] eqn:Hp. simpl.
  assert (Ht' : tracked s m = kept ++ rest ++ []) by now rewrite app_nil_r.
  destruct (sweepPrefix_quiet s n rest kept [] m k m1 Ht' Hc Hp) as (Hd & He & Hk).
  split; [exact Hd|split; [exact He|]].
  rewrite (sweepPrefix_tracked s rest kept [] m k m1 Ht' Hp), app_nil_r. exact Hk.
Qed.

Lemma sweepNodes_tracked s kept rest m :
  tracked s m = kept ++ rest ->
  exists l, tracked s (sweepNodes s kept rest m) = kept ++ l /\ incl l rest.
Proof.
  intros Ht. rewrite sweepNodes_as_prefix.
  destruct (sweepPrefix s kept rest [] m) as [k m1] eqn:Hp. simpl.
  assert (Ht' : tracked s m = kept ++ rest ++ []) by now rewrite app_nil_r.
  rewrite (sweepPrefix_tracked s rest kept [] m k m1 Ht' Hp), app_nil_r.
  destruct (sweepPrefix_kept s rest kept [] m k m1 Hp) as (l & -> & Hl). eauto.
Qed.

Lemma sweepNodes_frame s kept rest m :
  receiver_ (sweepNodes s kept rest m) = receiver_ m /\
  audioParams_ (sweepNodes s kept rest m) = audioParams_ m /\
  (forall s', s' <> s -> tracked s' (sweepNodes s kept rest m) = tracked s' m) /\
  spsc.capacity (nodeDeconstructor_ (sweepNodes s kept rest m))
  = spsc.capacity (nodeDeconstructor_ m) /\
  (exists r, spsc.buffer (nodeDeconstructor_ (sweepNodes s kept rest m))
             = spsc.buffer (nodeDeconstructor_ m) ++ r) /\
  (exists d, trace (sweepNodes s kept rest m) = trace m ++ d).
Proof.
  rewrite sweepNodes_as_prefix.
  destruct (sweepPrefix s kept rest [] m) as [k m1] eqn:Hp. simpl.
  exact (sweepPrefix_frame s rest kept [] m k m1 Hp).
Qed.

(** ** The sweep as a whole *)

Lemma prepare_split s m :
  prepareNodesForDestruction m
  = finishSweep s (sweepNodes s [] (tracked s (loopStart s m)) (loopStart s m)).
Proof. destruct s; reflexivity. Qed.

Lemma In_count_occ_pos (l : list nat) n : In n l <-> 1 <= count_occ Nat.eq_dec l n.
Proof. rewrite (count_occ_In Nat.eq_dec). unfold gt. lia. Qed.

(** The loop that follows does not touch a node the earlier loop still
    tracks once this is over, provided every entry it has in the later
    vector is shadowed by another tracked entry. *)
Lemma finishSweep_quiet s n m :
  (s = Sources -> In n (processingNodes_ m) -> 2 <= entries m n) ->
  (exists d, trace (finishSweep s m) = trace m ++ d /\ quiet n d) /\
  tracked s (finishSweep s m) = tracked s m.
Proof.
  intros Hc. destruct s; simpl.
  - unfold sweepProcessing.
    destruct (sweepNodes_quiet Processors n [] (processingNodes_ m) m eq_refl (Hc eq_refl))
      as (Hd & _ & _).
    split; [exact Hd|].
    destruct (sweepNodes_frame Processors [] (processingNodes_ m) m)
      as (_ & _ & Ho & _).
    apply (Ho Sources). discriminate.
  - split; [|reflexivity]. exists []. split; [now rewrite app_nil_r|constructor].
Qed.

Lemma loopStart_quiet s n m :
  (s = Processors -> In n (sourceNodes_ m) -> 2 <= entries m n) ->
  (exists d, trace (loopStart s m) = trace m ++ d /\ quiet n d) /\
  entries (loopStart s m) n = entries m n.
Proof.
  intros Hc. destruct s; simpl.
  - split; [|reflexivity]. exists []. split; [now rewrite app_nil_r|constructor].
  - destruct (sweepNodes_quiet Sources n [] (sourceNodes_ m) m eq_refl (Hc eq_refl))
      as (Hd & He & _).
    split; assumption.
Qed.

Lemma loopStart_frame s m :
  receiver_ (loopStart s m) = receiver_ m /\
  audioParams_ (loopStart s m) = audioParams_ m /\
  processingNodes_ (loopStart s m) = processingNodes_ m /\
  (exists d, trace (loopStart s m) = trace m ++ d).
Proof.
  destruct s; simpl.
  - repeat split. exists []. now rewrite app_nil_r.
  - destruct (sweepNodes_frame Sources [] (sourceNodes_ m) m)
      as (Hr & Ha & Ho & _ & _ & Hd).
    repeat split; try assumption. apply (Ho Processors). discriminate.
Qed.

(** [sweepPrefix] yields the loop state in which the sweep reaches an
    entry: the sweep as a whole is the loop continued from that state. *)
Lemma sweep_reaches_entry s m pre n post kept mv :
  tracked s (loopStart s m) = pre ++ n :: post ->
  sweepPrefix s [] pre (n :: post) (loopStart s m) = (kept, mv) ->
  tracked s mv = kept ++ n :: post /\
  prepareNodesForDestruction m = finishSweep s (sweepNodes s kept (n :: post) mv).
Proof.
  intros Ht Hp. split.
  - apply (sweepPrefix_tracked s pre [] (n :: post) (loopStart s m) kept mv);
      [exact Ht|exact Hp].
  - rewrite (prepare_split s), Ht, sweepNodes_prefix, Hp. reflexivity.
Qed.

(** An entry that does not qualify when the iterator reaches it is passed
    over: the visit changes nothing, no call of the rest of the sweep
    concerns the node, and the node is tracked when the sweep ends. *)
Lemma passed_over s m pre n post kept mv :
  tracked s (loopStart s m) = pre ++ n :: post ->
  sweepPrefix s [] pre (n :: post) (loopStart s m) = (kept, mv) ->
  qualifies s mv n = false ->
  visitNode s n mv = (false, mv) /\
  prepareNodesForDestruction m = finishSweep s (sweepNodes s (kept ++ [n]) post mv) /\
  teardown_calls n (trace (prepareNodesForDestruction m))
  = teardown_calls n (trace mv) /\
  In n (tracked s (prepareNodesForDestruction m)).
Proof.
  intros Ht Hp Hq.
  pose proof (visitNode_skip s n mv Hq) as Hv.
  split; [exact Hv|].
  split.
  { destruct (sweep_reaches_entry s m pre n post kept mv Ht Hp) as (_ & ->).
    rewrite sweepNodes_cons, Hv. reflexivity. }
  assert (Htv : tracked s mv = (kept ++ [n]) ++ post).
  { rewrite <- app_assoc.
    apply (sweepPrefix_tracked s pre [] (n :: post) (loopStart s m) kept mv);
      [exact Ht|exact Hp]. }
  rewrite (prepare_split s), Ht, sweepNodes_prefix, Hp. simpl fst; simpl snd.
  rewrite sweepNodes_cons, Hv. simpl fst; simpl snd.
  set (m2 := sweepNodes s (kept ++ [n]) post mv).
  assert (Hin : forall l, 1 <= count_occ Nat.eq_dec ((kept ++ [n]) ++ l) n).
  { intros l. rewrite !count_occ_app. simpl.
    destruct (Nat.eq_dec n n); [lia|contradiction]. }
  destruct (sweepNodes_quiet s n (kept ++ [n]) post mv Htv)
    as ((d & Hd & Hqd) & He & Hk).
  { intros Hpost. pose proof (count_occ_tracked_le_entries s mv n) as Hle.
    rewrite Htv, count_occ_app in Hle.
    apply In_count_occ_pos in Hpost. specialize (Hin []).
    rewrite app_nil_r in Hin. count_lia. }
  fold m2 in Hd, He, Hk.
  assert (Hin2 : In n (tracked s m2)).
  { apply In_count_occ_pos. rewrite Hk. apply Hin. }
  destruct (finishSweep_quiet s n m2) as ((d' & Hd' & Hqd') & Hts).
  { intros -> Hproc. apply In_count_occ_pos in Hproc. apply In_count_occ_pos in Hin2.
    simpl in Hin2. unfold entries. count_lia. }
  split.
  - rewrite Hd', Hd, <- app_assoc. apply quiet_teardown_calls. now apply quiet_app.
  - rewrite Hts. exact Hin2.
Qed.

Lemma finishSweep_frame s m :
  tracked s (finishSweep s m) = tracked s m /\
  receiver_ (finishSweep s m) = receiver_ m /\
  audioParams_ (finishSweep s m) = audioParams_ m /\
  (exists r, spsc.buffer (nodeDeconstructor_ (finishSweep s m))
             = spsc.buffer (nodeDeconstructor_ m) ++ r) /\
  (exists d, trace (finishSweep s m) = trace m ++ d).
Proof.
  destruct s; simpl.
  - unfold sweepProcessing.
    destruct (sweepNodes_frame Processors [] (processingNodes_ m) m)
      as (Hr & Ha & Ho & _ & Hb & Hd).
    repeat split; try assumption. apply (Ho Sources). discriminate.
  - repeat split; exists []; now rewrite app_nil_r.
Qed.

(** C1 (refcount guard).  Take any entry of a tracked vector, source or
    processing, and the loop state [mv] in which the iterator of the sweep
    reaches it.  If the use count observed there is greater than 1, the
    visit changes nothing (no cleanup, no offer to the destructor, no
    erase) and the sweep goes on behind the entry, no later call of this
    sweep concerns the node, and the node is in its tracked vector when
    the sweep returns. *)
Theorem refcount_guard s m pre n post kept mv :
  tracked s (loopStart s m) = pre ++ n :: post ->
  sweepPrefix s [] pre (n :: post) (loopStart s m) = (kept, mv) ->
  1 < use_count mv n ->
  visitNode s n mv = (false, mv) /\
  prepareNodesForDestruction m = finishSweep s (sweepNodes s (kept ++ [n]) post mv) /\
  teardown_calls n (trace (prepareNodesForDestruction m))
  = teardown_calls n (trace mv) /\
  In n (tracked s (prepareNodesForDestruction m)).
Proof.
  intros Ht Hp Hc. apply (passed_over s m pre n post kept mv Ht Hp).
  assert (Hne : (use_count mv n =? 1) = false) by (apply Nat.eqb_neq; lia).
  destruct s; simpl; unfold qualifiesSource, qualifiesProcessing; now rewrite Hne.
Qed.

(** C2 (playback guard).  Take any entry of the tracked source vector
    and the loop state [mv] in which the iterator reaches it.  If the node
    is PLAYING or SCHEDULED there, then whatever its use count the visit
    changes nothing and the sweep goes on behind the entry, no later call
    of this sweep concerns the node, and the node is in the source vector
    when the sweep returns. *)
Theorem playback_guard m pre n post kept mv :
  sourceNodes_ m = pre ++ n :: post ->
  sweepPrefix Sources [] pre (n :: post) m = (kept, mv) ->
  playbackState (env mv) n = PLAYING \/ playbackState (env mv) n = SCHEDULED ->
  isUnscheduled (env mv) n = false /\
  isFinished (env mv) n = false /\
  visitSourceNode n mv = (false, mv) /\
  prepareNodesForDestruction m = sweepProcessing (sweepSourceNodes (kept ++ [n]) post mv) /\
  teardown_calls n (trace (prepareNodesForDestruction m))
  = teardown_calls n (trace mv) /\
  In n (sourceNodes_ (prepareNodesForDestruction m)).
Proof.
  intros Ht Hp Hs.
  assert (Hu : isUnscheduled (env mv) n = false)
    by (unfold isUnscheduled; destruct Hs as [-> | ->]; reflexivity).
  assert (Hf : isFinished (env mv) n = false)
    by (unfold isFinished; destruct Hs as [-> | ->]; reflexivity).
  split; [exact Hu|split; [exact Hf|]].
  apply (passed_over Sources m pre n post kept mv Ht Hp).
  simpl. unfold qualifiesSource. rewrite Hu, Hf. apply andb_false_r.
Qed.

(** A qualifying entry is the only tracked entry of its node. *)
Lemma qualifying_entry_alone s mv kept n post :
  tracked s mv = kept ++ n :: post ->
  qualifies s mv n = true ->
  ~ In n kept /\ ~ In n post /\ entries mv n = 1.
Proof.
  intros Ht Hq. apply qualifies_use_count in Hq.
  pose proof (entries_le_use_count mv n) as H1.
  pose proof (count_occ_tracked_le_entries s mv n) as H2.
  rewrite Ht, count_occ_app in H2. simpl in H2.
  destruct (Nat.eq_dec n n) as [_|Hne]; [|contradiction].
  rewrite !In_count_occ_pos. count_lia.
Qed.

Lemma visitNode_qualifying s n mv :
  qualifies s mv n = true ->
  visitNode s n mv
  = (if spsc.is_full (nodeDeconstructor_ mv)
     then (false, log (CallTryAddNodeForDeconstruction n false) (cleaned n mv))
     else (true, log (CallTryAddNodeForDeconstruction n true)
                   (set_nodeDeconstructor
                      (spsc.mkChannel (spsc.capacity (nodeDeconstructor_ mv))
                         (spsc.buffer (nodeDeconstructor_ mv) ++ [n]))
                      (cleaned n mv)))).
Proof.
  intros Hq. rewrite (visitNode_take s n mv Hq).
  destruct (spsc.is_full (nodeDeconstructor_ mv)) eqn:Hf.
  - exact (tryAdd_full n (cleaned n mv) Hf).
  - exact (tryAdd_room n (cleaned n mv) Hf).
Qed.

(** C5 (backpressure retry).  Take any entry of a tracked vector that
    qualifies for teardown in the loop state [mv] in which the iterator
    reaches it.  If the destructor's channel is full there, the retire
    attempt answers false, the entry is not erased, the loop moves on, and
    the node is in its tracked vector when the sweep returns.  If the
    channel has room (as in a later sweep, once the destructor's thread
    has taken handles out), the attempt answers true, the handle is in the
    destructor's channel and the node is in its tracked vector no more
    when the sweep returns. *)
Theorem backpressure_retry s m pre n post kept mv :
  tracked s (loopStart s m) = pre ++ n :: post ->
  sweepPrefix s [] pre (n :: post) (loopStart s m) = (kept, mv) ->
  qualifies s mv n = true ->
  (spsc.is_full (nodeDeconstructor_ mv) = true ->
     tryAddNodeForDeconstruction n (cleaned n mv)
     = (false, log (CallTryAddNodeForDeconstruction n false) (cleaned n mv)) /\
     visitNode s n mv
     = (false, log (CallTryAddNodeForDeconstruction n false) (cleaned n mv)) /\
     In n (tracked s (prepareNodesForDestruction m))) /\
  (spsc.is_full (nodeDeconstructor_ mv) = false ->
     fst (tryAddNodeForDeconstruction n (cleaned n mv)) = true /\
     fst (visitNode s n mv) = true /\
     In n (spsc.buffer (nodeDeconstructor_ (prepareNodesForDestruction m))) /\
     ~ In n (tracked s (prepareNodesForDestruction m))).
Proof.
  intros Ht Hp Hq.
  assert (Htv : tracked s mv = kept ++ n :: post)
    by (apply (sweepPrefix_tracked s pre [] (n :: post) (loopStart s m) kept mv);
        [exact Ht|exact Hp]).
  destruct (qualifying_entry_alone s mv kept n post Htv Hq) as (Hk & Hpost & _).
  pose proof (visitNode_qualifying s n mv Hq) as Hv.
  assert (Hprep : prepareNodesForDestruction m
                  = finishSweep s (sweepNodes s kept (n :: post) mv)).
  { rewrite (prepare_split s), Ht, sweepNodes_prefix, Hp. reflexivity. }
  destruct (finishSweep_frame s (sweepNodes s kept (n :: post) mv))
    as (Hft & _ & _ & (r2 & Hfb) & _).
  split; intros Hfull; rewrite Hfull in Hv.
  - split; [exact (tryAdd_full n (cleaned n mv) Hfull)|]. split; [exact Hv|].
    rewrite Hprep, Hft, sweepNodes_cons, Hv. simpl fst; simpl snd.
    set (m1 := log (CallTryAddNodeForDeconstruction n false) (cleaned n mv)).
    destruct (sweepNodes_tracked s (kept ++ [n]) post m1) as (l & Hl & _).
    { replace (tracked s m1) with (tracked s mv) by (destruct s; reflexivity).
      rewrite Htv, <- app_assoc. reflexivity. }
    rewrite Hl. apply in_or_app. left. apply in_or_app. right. now left.
  - split; [rewrite (tryAdd_room n (cleaned n mv) Hfull); reflexivity|].
    split; [rewrite Hv; reflexivity|].
    rewrite Hprep, Hft, Hfb, sweepNodes_cons, Hv. simpl fst; simpl snd.
    match goal with
    | |- context [sweepNodes s kept post ?x] => set (m1 := x)
    end.
    destruct (sweepNodes_tracked s kept post m1) as (l & Hl & Hincl).
    { unfold m1. apply tracked_set_tracked. }
    destruct (sweepNodes_frame s kept post m1) as (_ & _ & _ & _ & (r & Hb) & _).
    split.
    + rewrite Hb. apply in_or_app. left. apply in_or_app. left.
      unfold m1. replace (spsc.buffer (nodeDeconstructor_ (set_tracked s (kept ++ post) _)))
        with (spsc.buffer (nodeDeconstructor_ mv) ++ [n]) by (destruct s; reflexivity).
      apply in_or_app. right. now left.
    + rewrite Hl. intros Hin. apply in_app_or in Hin. destruct Hin as [Hin|Hin].
      * exact (Hk Hin).
      * exact (Hpost (Hincl _ Hin)).
Qed.

(** ** Cleanup and retire attempts across sweeps *)

Lemma teardown_calls_app n t d :
  teardown_calls n (t ++ d) = teardown_calls n t ++ teardown_calls n d.
Proof. apply filter_app. Qed.

Lemma cleanup_calls_teardown n t :
  cleanup_calls n (teardown_calls n t) = cleanup_calls n t.
Proof.
  unfold cleanup_calls, teardown_calls.
  induction t as [|c t IH]; simpl; [reflexivity|].
  destruct (about n c) eqn:Ea; simpl.
  - destruct (is_cleanup_of n c); simpl; now rewrite IH.
  - assert (Hc : is_cleanup_of n c = false)
      by (destruct c; simpl in *; try reflexivity; exact Ea).
    now rewrite Hc.
Qed.

(** Once the iterator is past the last entry of [n], what remains of the
    sweep issues no call on [n]. *)
Lemma rest_quiet s n kept post m1 :
  tracked s m1 = kept ++ post ->
  ~ In n post ->
  (s = Sources -> ~ In n (processingNodes_ m1)) ->
  exists d, trace (finishSweep s (sweepNodes s kept post m1)) = trace m1 ++ d
            /\ quiet n d.
Proof.
  intros Ht Hpost Hproc.
  destruct (sweepNodes_quiet s n kept post m1 Ht) as ((d & Hd & Hqd) & _ & _).
  { intros Hin. contradiction. }
  destruct (sweepNodes_frame s kept post m1) as (_ & _ & Ho & _).
  destruct (finishSweep_quiet s n (sweepNodes s kept post m1))
    as ((d' & Hd' & Hqd') & _).
  { intros -> Hin. exfalso. apply (Hproc eq_refl).
    assert (Hp : tracked Processors (sweepNodes Sources kept post m1)
                 = tracked Processors m1) by (apply Ho; discriminate).
    simpl in Hp. rewrite <- Hp. exact Hin. }
  exists (d ++ d'). split.
  - rewrite Hd', Hd. now rewrite <- app_assoc.
  - now apply quiet_app.
Qed.

(** The calls of one sweep that concern a node whose entry qualifies when
    the iterator reaches it: cleanup, then the retire attempt, nothing
    else. *)
Lemma qualifying_sweep_calls s m pre n post kept mv :
  tracked s (loopStart s m) = pre ++ n :: post ->
  sweepPrefix s [] pre (n :: post) (loopStart s m) = (kept, mv) ->
  qualifies s mv n = true ->
  teardown_calls n (trace (prepareNodesForDestruction m))
  = teardown_calls n (trace m)
    ++ [CallCleanup n;
        CallTryAddNodeForDeconstruction n (negb (spsc.is_full (nodeDeconstructor_ mv)))].
Proof.
  intros Ht Hp Hq.
  assert (Htv : tracked s mv = kept ++ n :: post)
    by (apply (sweepPrefix_tracked s pre [] (n :: post) (loopStart s m) kept mv);
        [exact Ht|exact Hp]).
  destruct (qualifying_entry_alone s mv kept n post Htv Hq) as (Hk & Hpost & Hone).
  (* the loop before this one *)
  destruct (loopStart_quiet s n m) as ((d0 & Hd0 & Hq0) & _).
  { intros -> Hsrc. simpl in Ht.
    destruct (loopStart_frame Processors m) as (_ & _ & Hpn & _).
    simpl in Hpn. rewrite Hpn in Ht.
    apply In_count_occ_pos in Hsrc.
    assert (Hin : In n (processingNodes_ m))
      by (rewrite Ht; apply in_or_app; right; now left).
    apply In_count_occ_pos in Hin. unfold entries. count_lia. }
  (* the entries in front of this one *)
  destruct (sweepPrefix_quiet s n pre [] (n :: post) (loopStart s m) kept mv Ht)
    as ((d1 & Hd1 & Hq1) & _ & _).
  { intros Hin. apply In_count_occ_pos in Hin.
    pose proof (count_occ_tracked_le_entries s (loopStart s m) n) as Hle.
    rewrite Ht, count_occ_app in Hle. simpl in Hle.
    destruct (Nat.eq_dec n n) as [_|Hne]; [|contradiction]. count_lia. }
  { exact Hp. }
  (* the entry itself and the entries behind it *)
  pose proof (visitNode_qualifying s n mv Hq) as Hv.
  assert (Hproc : s = Sources -> ~ In n (processingNodes_ mv)).
  { intros -> Hin. apply In_count_occ_pos in Hin. simpl in Htv.
    unfold entries in Hone. rewrite Htv, count_occ_app in Hone. simpl in Hone.
    destruct (Nat.eq_dec n n) as [_|Hne]; [|contradiction]. count_lia. }
  assert (Hrest : exists d2,
             trace (finishSweep s (sweepNodes s kept (n :: post) mv))
             = (trace mv
                ++ [CallCleanup n;
                    CallTryAddNodeForDeconstruction n
                      (negb (spsc.is_full (nodeDeconstructor_ mv)))]) ++ d2
             /\ quiet n d2).
  { destruct (spsc.is_full (nodeDeconstructor_ mv));
      rewrite sweepNodes_cons, Hv; cbn [fst snd negb].
    - match goal with |- context [sweepNodes s _ post ?x] => set (m1 := x) end.
      destruct (rest_quiet s n (kept ++ [n]) post m1) as (d & Hd & Hqd).
      + replace (tracked s m1) with (tracked s mv) by (destruct s; reflexivity).
        rewrite Htv, <- app_assoc. reflexivity.
      + exact Hpost.
      + exact Hproc.
      + exists d. split; [|exact Hqd].
        rewrite Hd. unfold m1. simpl. now rewrite <- !app_assoc.
    - match goal with |- context [sweepNodes s _ post ?x] => set (m1 := x) end.
      destruct (rest_quiet s n kept post m1) as (d & Hd & Hqd).
      + apply tracked_set_tracked.
      + exact Hpost.
      + intros ->. apply (Hproc eq_refl).
      + exists d. split; [|exact Hqd].
        rewrite Hd. unfold m1.
        replace (trace (set_tracked s (kept ++ post) _))
          with ((trace mv ++ [CallCleanup n])
                ++ [CallTryAddNodeForDeconstruction n true])
          by (destruct s; reflexivity).
        now rewrite <- !app_assoc. }
  destruct Hrest as (d2 & Hd2 & Hq2).
  rewrite (prepare_split s), Ht, sweepNodes_prefix, Hp. simpl fst; simpl snd.
  rewrite Hd2, Hd1, Hd0.
  rewrite (quiet_teardown_calls n _ d2 Hq2), teardown_calls_app.
  rewrite (quiet_teardown_calls n _ d1 Hq1), (quiet_teardown_calls n _ d0 Hq0).
  f_equal. unfold teardown_calls. simpl. now rewrite Nat.eqb_refl.
Qed.

Lemma teardown_calls_eq_trace n t t' :
  t' = t -> teardown_calls n t' = teardown_calls n t.
Proof. now intros ->. Qed.

(** C10 (cleanup once per qualifying sweep).  Over [k] sweeps in each of
    which the entry of [n] qualifies when the iterator reaches it, with
    the drains of the render quanta and whatever the other threads do in
    between, the calls that concern [n] are [k] pairs, each a cleanup
    followed by the retire attempt of the same sweep with its answer:
    cleanup comes before the attempt, a refused attempt takes nothing
    back, and cleanup has been invoked [k] more times than before the
    first of these sweeps.  In each such visit the graph is the one
    [AudioNode::cleanup] of [n] has left, whatever the destructor
    answers. *)
Theorem cleanup_each_qualifying_sweep s n k m m' :
  qualifying_sweeps s n k m m' ->
  (exists answers : list bool,
      length answers = k /\
      teardown_calls n (trace m')
      = teardown_calls n (trace m)
        ++ flat_map (fun accepted =>
                       [CallCleanup n; CallTryAddNodeForDeconstruction n accepted])
             answers) /\
  cleanup_calls n (trace m') = cleanup_calls n (trace m) + k /\
  (forall mv,
      qualifies s mv n = true ->
      env (snd (visitNode s n mv)) = node_cleanup n (env mv) /\
      trace (snd (visitNode s n mv))
      = trace mv ++ [CallCleanup n;
                     CallTryAddNodeForDeconstruction n (fst (visitNode s n mv))] /\
      fst (visitNode s n mv) = negb (spsc.is_full (nodeDeconstructor_ mv))).
Proof.
  intros Hrun.
  cut ((exists answers : list bool,
          length answers = k /\
          teardown_calls n (trace m')
          = teardown_calls n (trace m)
            ++ flat_map (fun accepted =>
                           [CallCleanup n; CallTryAddNodeForDeconstruction n accepted])
                 answers) /\
       cleanup_calls n (trace m') = cleanup_calls n (trace m) + k).
  { intros (A & B). split; [exact A|]. split; [exact B|].
    intros mv Hq. rewrite (visitNode_qualifying s n mv Hq).
    destruct (spsc.is_full (nodeDeconstructor_ mv)); simpl;
      rewrite <- app_assoc; repeat split. }
  assert (Hcalls : exists answers : list bool,
      length answers = k /\
      teardown_calls n (trace m')
      = teardown_calls n (trace m)
        ++ flat_map (fun accepted =>
                       [CallCleanup n; CallTryAddNodeForDeconstruction n accepted])
             answers).
  { induction Hrun as [m|k m pre post kept mv m1 m' Ht Hp Hq Htr Hrun IH].
    - exists []. split; [reflexivity|]. simpl. now rewrite app_nil_r.
    - destruct IH as (answers & Hlen & Hcalls).
      exists (negb (spsc.is_full (nodeDeconstructor_ mv)) :: answers).
      split; [simpl; now rewrite Hlen|].
      rewrite Hcalls, Htr, (qualifying_sweep_calls s m pre n post kept mv Ht Hp Hq).
      simpl. now rewrite <- app_assoc. }
  split; [exact Hcalls|].
  destruct Hcalls as (answers & Hlen & Hcalls).
  rewrite <- (cleanup_calls_teardown n (trace m')), Hcalls.
  rewrite cleanup_calls_app, cleanup_calls_teardown. f_equal.
  subst k. clear. induction answers as [|a answers IH]; [reflexivity|].
  unfold cleanup_calls in *. simpl. rewrite Nat.eqb_refl. simpl. now rewrite IH.
Qed.

(** ** Registration *)

Lemma count_occ_push_back (l : list nat) (carried x : nat) :
  count_occ Nat.eq_dec (l ++ [carried]) x
  = count_occ Nat.eq_dec l x + (if Nat.eq_dec carried x then 1 else 0).
Proof.
  rewrite count_occ_app. simpl. destruct (Nat.eq_dec carried x); reflexivity.
Qed.

(** C6, amended (ADD appends).  Processing an ADD event appends the
    carried handle at the end of its tracked vector and leaves the other
    two vectors alone: the number of entries of the carried identity grows
    by one, also when the identity is tracked already, and no other
    identity gains or loses an entry. *)
Theorem add_appends_one_entry m :
  (forall node,
      handleAddToDeconstructionEvent (mkEvent ADD (payload_node node)) m
      = Ok (set_processingNodes (processingNodes_ m ++ [node]) m) /\
      forall x,
        count_occ Nat.eq_dec
          (processingNodes_ (set_processingNodes (processingNodes_ m ++ [node]) m)) x
        = count_occ Nat.eq_dec (processingNodes_ m) x
          + (if Nat.eq_dec node x then 1 else 0)) /\
  (forall sourceNode,
      handleAddToDeconstructionEvent (mkEvent ADD (payload_sourceNode sourceNode)) m
      = Ok (set_sourceNodes (sourceNodes_ m ++ [sourceNode]) m) /\
      forall x,
        count_occ Nat.eq_dec
          (sourceNodes_ (set_sourceNodes (sourceNodes_ m ++ [sourceNode]) m)) x
        = count_occ Nat.eq_dec (sourceNodes_ m) x
          + (if Nat.eq_dec sourceNode x then 1 else 0)) /\
  (forall audioParam,
      handleAddToDeconstructionEvent (mkEvent ADD (payload_audioParam audioParam)) m
      = Ok (set_audioParams (audioParams_ m ++ [audioParam]) m) /\
      forall x,
        count_occ Nat.eq_dec
          (audioParams_ (set_audioParams (audioParams_ m ++ [audioParam]) m)) x
        = count_occ Nat.eq_dec (audioParams_ m) x
          + (if Nat.eq_dec audioParam x then 1 else 0)).
Proof.
  repeat split; intros x; simpl; apply count_occ_push_back.
Qed.

(** ** Teardown of the manager *)

Lemma cleanup_all_spec l : forall m,
  trace (cleanup_all l m) = trace m ++ map CallCleanup l /\
  receiver_ (cleanup_all l m) = receiver_ m /\
  sourceNodes_ (cleanup_all l m) = sourceNodes_ m /\
  processingNodes_ (cleanup_all l m) = processingNodes_ m /\
  audioParams_ (cleanup_all l m) = audioParams_ m /\
  nodeDeconstructor_ (cleanup_all l m) = nodeDeconstructor_ m /\
  env (cleanup_all l m) = fold_left (fun w n => node_cleanup n w) l (env m).
Proof.
  induction l as [|n l IH]; intros m.
  - simpl. rewrite app_nil_r. repeat split.
  - simpl. destruct (IH (call (CallCleanup n) (node_cleanup n) m))
      as (Ht & Hr & Hs & Hp & Ha & Hd & He).
    rewrite Ht, Hr, Hs, Hp, Ha, Hd, He. simpl.
    rewrite <- app_assoc. repeat split.
Qed.

Lemma cleanup_trace m :
  trace (cleanup m)
  = trace m ++ map CallCleanup (sourceNodes_ m) ++ map CallCleanup (processingNodes_ m).
Proof.
  unfold cleanup. simpl.
  destruct (cleanup_all_spec (sourceNodes_ m) m) as (Ht1 & _ & _ & Hp1 & _).
  destruct (cleanup_all_spec (processingNodes_ (cleanup_all (sourceNodes_ m) m))
              (cleanup_all (sourceNodes_ m) m)) as (Ht2 & _).
  rewrite Ht2, Ht1, Hp1. now rewrite <- app_assoc.
Qed.


(** ** Parameters *)

Lemma use_count_set_audioParams l m n :
  use_count (set_audioParams l m) n = use_count m n.
Proof. reflexivity. Qed.

Lemma visitNode_set_audioParams l s n m :
  visitNode s n (set_audioParams l m)
  = (fst (visitNode s n m), set_audioParams l (snd (visitNode s n m))).
Proof.
  destruct s; simpl; unfold visitSourceNode, visitProcessingNode,
    qualifiesSource, qualifiesProcessing; rewrite use_count_set_audioParams; simpl.
  - destruct ((use_count m n =? 1) && (isUnscheduled (env m) n || isFinished (env m) n));
      [|reflexivity].
    unfold tryAddNodeForDeconstruction, spsc.try_send. simpl.
    destruct (spsc.is_full (nodeDeconstructor_ m)); reflexivity.
  - destruct (use_count m n =? 1); [|reflexivity].
    unfold tryAddNodeForDeconstruction, spsc.try_send. simpl.
    destruct (spsc.is_full (nodeDeconstructor_ m)); reflexivity.
Qed.

Lemma sweepNodes_set_audioParams l s rest : forall kept m,
  sweepNodes s kept rest (set_audioParams l m)
  = set_audioParams l (sweepNodes s kept rest m).
Proof.
  induction rest as [|n rest IH]; intros kept m.
  - now rewrite !sweepNodes_nil.
  - rewrite !sweepNodes_cons, visitNode_set_audioParams. simpl fst; simpl snd.
    destruct (fst (visitNode s n m)).
    + rewrite <- IH. f_equal. destruct s; reflexivity.
    + apply IH.
Qed.

Lemma prepare_set_audioParams l m :
  prepareNodesForDestruction (set_audioParams l m)
  = set_audioParams l (prepareNodesForDestruction m).
Proof.
  unfold prepareNodesForDestruction, sweepProcessing.
  change (sourceNodes_ (set_audioParams l m)) with (sourceNodes_ m).
  pose proof (sweepNodes_set_audioParams l Sources (sourceNodes_ m) [] m) as E1.
  simpl in E1. rewrite E1.
  change (processingNodes_ (set_audioParams l ?x)) with (processingNodes_ x).
  apply (sweepNodes_set_audioParams l Processors).
Qed.

Lemma prepare_audioParams m :
  audioParams_ (prepareNodesForDestruction m) = audioParams_ m.
Proof.
  rewrite (prepare_split Sources).
  destruct (finishSweep_frame Sources
              (sweepNodes Sources [] (tracked Sources (loopStart Sources m))
                 (loopStart Sources m))) as (_ & _ & Ha & _).
  rewrite Ha.
  destruct (sweepNodes_frame Sources [] (tracked Sources (loopStart Sources m))
              (loopStart Sources m)) as (_ & Ha' & _).
  exact Ha'.
Qed.

(** ** Event handlers *)

Lemma handler_effect_refl m : handler_effect m m.
Proof. constructor; try reflexivity; exists []; now rewrite app_nil_r. Qed.

Lemma handler_effect_trans m1 m2 m3 :
  handler_effect m1 m2 -> handler_effect m2 m3 -> handler_effect m1 m3.
Proof.
  intros [Hr1 Hd1 (a1 & Hs1) (b1 & Hp1) (c1 & Ha1) (d1 & Ht1)]
         [Hr2 Hd2 (a2 & Hs2) (b2 & Hp2) (c2 & Ha2) (d2 & Ht2)].
  constructor; try congruence.
  - exists (a1 ++ a2). rewrite Hs2, Hs1. now rewrite <- app_assoc.
  - exists (b1 ++ b2). rewrite Hp2, Hp1. now rewrite <- app_assoc.
  - exists (c1 ++ c2). rewrite Ha2, Ha1. now rewrite <- app_assoc.
  - exists (d1 ++ d2). rewrite Ht2, Ht1. now rewrite <- app_assoc.
Qed.

Lemma call_effect c f m : handler_effect m (call c f m).
Proof.
  constructor; simpl; try reflexivity;
    try (exists []; now rewrite app_nil_r).
  now exists [c].
Qed.

Lemma disconnectAll_loop_effect from fuel : forall it m m',
  disconnectAll_loop fuel from it m = Ok m' -> handler_effect m m'.
Proof.
  induction fuel as [|fuel IH]; intros it m m' Hl.
  - destruct it; simpl in Hl; [discriminate|].
    inversion Hl; subst. apply handler_effect_refl.
  - destruct it as [x|]; simpl in Hl.
    + destruct (iterator_valid (outputNodes_ (env m) from) x); [|discriminate].
      apply IH in Hl. eapply handler_effect_trans; [|exact Hl]. apply call_effect.
    + inversion Hl; subst. apply handler_effect_refl.
Qed.

Lemma dispatch_effect event m m' :
  dispatch event m = Ok m' -> handler_effect m m'.
Proof.
  unfold dispatch, handleConnectEvent, handleDisconnectEvent,
    handleDisconnectAllEvent, handleAddToDeconstructionEvent.
  destruct (type event); destruct (payload event); intros Hd;
    try discriminate; try (inversion Hd; subst; apply call_effect).
  - eapply disconnectAll_loop_effect; exact Hd.
  - inversion Hd; subst. constructor; simpl; try reflexivity;
      try (exists []; now rewrite app_nil_r). eauto.
  - inversion Hd; subst. constructor; simpl; try reflexivity;
      try (exists []; now rewrite app_nil_r). eauto.
  - inversion Hd; subst. constructor; simpl; try reflexivity;
      try (exists []; now rewrite app_nil_r). eauto.
Qed.

(** ** Draining the channel *)

Lemma settle_loop_in_order events : forall fuel m,
  spsc.buffer (receiver_ m) = events ->
  length events <= fuel ->
  settle_loop fuel m = dispatch_in_enqueue_order events m.
Proof.
  induction events as [|event events IH]; intros fuel m Hb Hf.
  - destruct fuel; simpl; unfold spsc.try_receive; rewrite Hb; reflexivity.
  - destruct fuel as [|fuel]; [simpl in Hf; lia|].
    simpl. unfold spsc.try_receive. rewrite Hb.
    destruct (dispatch event
                (set_receiver (spsc.mkChannel (spsc.capacity (receiver_ m)) events) m))
      as [m'|f] eqn:Hd; simpl; [|reflexivity].
    apply IH.
    + rewrite (he_receiver (dispatch_effect _ _ _ Hd)). reflexivity.
    + simpl in Hf. lia.
Qed.

Lemma settle_in_order m :
  settlePendingConnections m
  = dispatch_in_enqueue_order (spsc.buffer (receiver_ m)) m.
Proof.
  unfold settlePendingConnections. apply settle_loop_in_order; [reflexivity|lia].
Qed.

Lemma dispatch_in_order_effect events : forall m m',
  dispatch_in_enqueue_order events m = Ok m' ->
  spsc.buffer (receiver_ m) = events ->
  spsc.buffer (receiver_ m') = [] /\
  spsc.capacity (receiver_ m') = spsc.capacity (receiver_ m) /\
  nodeDeconstructor_ m' = nodeDeconstructor_ m /\
  (exists a, sourceNodes_ m' = sourceNodes_ m ++ a) /\
  (exists a, processingNodes_ m' = processingNodes_ m ++ a) /\
  (exists a, audioParams_ m' = audioParams_ m ++ a) /\
  (exists d, trace m' = trace m ++ d).
Proof.
  induction events as [|event events IH]; intros m m' Hd Hb.
  - simpl in Hd. inversion Hd; subst.
    repeat split; try assumption; exists []; now rewrite app_nil_r.
  - simpl in Hd.
    destruct (dispatch event
                (set_receiver (spsc.mkChannel (spsc.capacity (receiver_ m)) events) m))
      as [m1|f] eqn:H1; simpl in Hd; [|discriminate].
    pose proof (dispatch_effect _ _ _ H1) as [Hr Hde (a1 & Hs) (b1 & Hp) (c1 & Ha) (d1 & Ht)].
    simpl in *.
    destruct (IH m1 m' Hd) as (Hb' & Hc' & Hd' & (a2 & Hs') & (b2 & Hp') & (c2 & Ha') & (d2 & Ht')).
    { rewrite Hr. reflexivity. }
    split; [exact Hb'|]. split; [rewrite Hc', Hr; reflexivity|].
    split; [congruence|].
    split; [exists (a1 ++ a2); rewrite Hs', Hs; now rewrite <- app_assoc|].
    split; [exists (b1 ++ b2); rewrite Hp', Hp; now rewrite <- app_assoc|].
    split; [exists (c1 ++ c2); rewrite Ha', Ha; now rewrite <- app_assoc|].
    exists (d1 ++ d2). rewrite Ht', Ht. now rewrite <- app_assoc.
Qed.

Lemma send_event_effect event m m' :
  send_event event m = Some m' ->
  spsc.buffer (receiver_ m') = spsc.buffer (receiver_ m) ++ [event] /\
  spsc.capacity (receiver_ m') = spsc.capacity (receiver_ m) /\
  env m' = env m /\ sourceNodes_ m' = sourceNodes_ m /\
  processingNodes_ m' = processingNodes_ m /\ audioParams_ m' = audioParams_ m /\
  nodeDeconstructor_ m' = nodeDeconstructor_ m /\ trace m' = trace m.
Proof.
  unfold send_event, spsc.send, spsc.try_send.
  destruct (spsc.is_full (receiver_ m)); [discriminate|].
  intros Hs. inversion Hs; subst. simpl. repeat split.
Qed.

(** C9 (parameters are out of the sweep's reach).  The sweep leaves the
    tracked parameter vector as it is, and what it does is the same
    whatever that vector holds.  No producer request and no drain removes
    a parameter either: a drain only appends.  Shutdown empties the vector,
    and the only calls it issues are the cleanups of the tracked source
    and processing nodes. *)
Theorem sweep_leaves_parameters m :
  audioParams_ (prepareNodesForDestruction m) = audioParams_ m /\
  (forall l, prepareNodesForDestruction (set_audioParams l m)
             = set_audioParams l (prepareNodesForDestruction m)) /\
  (forall event m', send_event event m = Some m' -> audioParams_ m' = audioParams_ m) /\
  (forall m', settlePendingConnections m = Ok m' ->
              exists added, audioParams_ m' = audioParams_ m ++ added) /\
  audioParams_ (cleanup m) = [] /\
  trace (cleanup m)
  = trace m ++ map CallCleanup (sourceNodes_ m) ++ map CallCleanup (processingNodes_ m).
Proof.
  split; [apply prepare_audioParams|].
  split; [intros l; apply prepare_set_audioParams|].
  split.
  { intros event m' Hs. now destruct (send_event_effect _ _ _ Hs) as (_ & _ & _ & _ & _ & Ha & _). }
  split.
  { intros m' Hs. rewrite settle_in_order in Hs.
    now destruct (dispatch_in_order_effect _ _ _ Hs eq_refl) as (_ & _ & _ & _ & _ & Ha & _). }
  split; [reflexivity|apply cleanup_trace].
Qed.

(** ** Disconnecting all outputs *)

Lemma remove_head_NoDup (x : nat) (l : list nat) :
  NoDup (x :: l) -> remove Nat.eq_dec x (x :: l) = l.
Proof.
  intros Hnd. inversion Hnd; subst. simpl.
  destruct (Nat.eq_dec x x) as [_|Hne]; [|contradiction].
  now apply notin_remove.
Qed.

(** The loop over a set of edges that [disconnectNode] erases one at a
    time: the saved iterator stays valid, every edge is disconnected once,
    in the order of the iteration, and none is left. *)
Lemma disconnectAll_loop_spec from :
  (forall w x, outputNodes_ (disconnectNode from x w) from
               = remove Nat.eq_dec x (outputNodes_ w from)) ->
  forall l fuel m,
    outputNodes_ (env m) from = l ->
    NoDup l ->
    length l <= fuel ->
    exists m',
      disconnectAll_loop fuel from (set_begin l) m = Ok m' /\
      outputNodes_ (env m') from = [] /\
      trace m' = trace m ++ map (CallDisconnectNode from) l.
Proof.
  intros Hdisc. induction l as [|x l IH]; intros fuel m Hl Hnd Hf.
  - exists m. destruct fuel; simpl; rewrite app_nil_r; auto.
  - destruct fuel as [|fuel]; [simpl in Hf; lia|].
    simpl. rewrite Hl. unfold iterator_valid. simpl. rewrite Nat.eqb_refl. simpl.
    set (m1 := call (CallDisconnectNode from x) (disconnectNode from x) m).
    destruct (IH fuel m1) as (m' & Hloop & Hout & Htr).
    + unfold m1. simpl. rewrite Hdisc, Hl. now apply remove_head_NoDup.
    + now inversion Hnd.
    + simpl in Hf. lia.
    + exists m'. split; [exact Hloop|]. split; [exact Hout|].
      rewrite Htr. unfold m1. simpl. now rewrite <- app_assoc.
Qed.

Lemma NoDup_map_inj_call from (l : list node_id) :
  NoDup l -> NoDup (map (CallDisconnectNode from) l).
Proof.
  induction 1 as [|x l Hx Hnd IH]; simpl; constructor; [|exact IH].
  intros Hin. apply in_map_iff in Hin. destruct Hin as (y & Hy & Hin).
  inversion Hy; subst. contradiction.
Qed.

(** C7 (disconnect-all).  For a node whose outgoing edges form a set from
    which [disconnectNode] erases the named edge, processing one
    DISCONNECT_ALL event returns, leaves the node without outgoing edges,
    and has called [disconnectNode] once for every edge the node had, no
    edge skipped and none twice, in the order of the iteration: the
    iterator saved before each call is still valid after it. *)
Theorem disconnect_all_removes_every_edge m from to :
  NoDup (outputNodes_ (env m) from) ->
  (forall w x, outputNodes_ (disconnectNode from x w) from
               = remove Nat.eq_dec x (outputNodes_ w from)) ->
  exists m',
    handleDisconnectAllEvent (mkEvent DISCONNECT_ALL (payload_nodes from to)) m = Ok m' /\
    dispatch (mkEvent DISCONNECT_ALL (payload_nodes from to)) m = Ok m' /\
    outputNodes_ (env m') from = [] /\
    trace m' = trace m ++ map (CallDisconnectNode from) (outputNodes_ (env m) from) /\
    NoDup (map (CallDisconnectNode from) (outputNodes_ (env m) from)).
Proof.
  intros Hnd Hdisc.
  destruct (disconnectAll_loop_spec from Hdisc (outputNodes_ (env m) from)
              (length (outputNodes_ (env m) from)) m eq_refl Hnd (le_n _))
    as (m' & Hloop & Hout & Htr).
  exists m'. repeat split; try assumption.
  apply NoDup_map_inj_call. exact Hnd.
Qed.

(** ** The drain *)

Lemma dispatch_returns event m :
  outputs_are_sets -> disconnectNode_erases ->
  event_ok event = true ->
  exists m', dispatch event m = Ok m'.
Proof.
  intros Hsets Herase Hok. destruct event as [t p].
  unfold event_ok, payloadType in Hok. simpl in Hok.
  unfold dispatch, handleConnectEvent, handleDisconnectEvent,
    handleAddToDeconstructionEvent. simpl.
  destruct t; destruct p; try discriminate; eauto.
  unfold handleDisconnectAllEvent. simpl.
  destruct (disconnectAll_loop_spec from (fun w x => Herase w from x)
              (outputNodes_ (env m) from) (length (outputNodes_ (env m) from)) m
              eq_refl (Hsets _ _) (le_n _)) as (m' & Hloop & _).
  exists m'. exact Hloop.
Qed.

Lemma dispatch_in_order_returns events : forall m,
  outputs_are_sets -> disconnectNode_erases ->
  forallb event_ok events = true ->
  exists m', dispatch_in_enqueue_order events m = Ok m'.
Proof.
  induction events as [|event events IH]; intros m Hsets Herase Hok.
  - exists m. reflexivity.
  - simpl in Hok. apply andb_prop in Hok. destruct Hok as (Hok & Hoks).
    simpl.
    destruct (dispatch_returns event
                (set_receiver (spsc.mkChannel (spsc.capacity (receiver_ m)) events) m)
                Hsets Herase Hok) as (m1 & ->).
    simpl. apply IH; assumption.
Qed.

Lemma send_all_buffer events : forall m m',
  send_all events m = Some m' ->
  spsc.buffer (receiver_ m') = spsc.buffer (receiver_ m) ++ events /\
  env m' = env m /\ sourceNodes_ m' = sourceNodes_ m /\
  processingNodes_ m' = processingNodes_ m /\ audioParams_ m' = audioParams_ m /\
  nodeDeconstructor_ m' = nodeDeconstructor_ m /\ trace m' = trace m.
Proof.
  induction events as [|event events IH]; intros m m' Hs.
  - simpl in Hs. inversion Hs; subst. rewrite app_nil_r. repeat split.
  - simpl in Hs. destruct (send_event event m) as [m1|] eqn:H1; [|discriminate].
    destruct (send_event_effect _ _ _ H1) as (Hb & _ & He & Hsn & Hpn & Ha & Hd & Ht).
    destruct (IH _ _ Hs) as (Hb' & He' & Hsn' & Hpn' & Ha' & Hd' & Ht').
    rewrite Hb', Hb, <- app_assoc. repeat split; congruence.
Qed.

(** ** Scenario A *)

(** C3, amended (register, then connect).  From an empty channel, after
    ADD of source node [src] and CONNECT of [src] to parameter [param],
    one call of [preProcessGraph] returns; its drain appends [src] to the
    tracked source vector and applies [connectParam] to [src] with
    [param], and that call is in the trace when [preProcessGraph] returns.
    The node [src] is still in the source vector then if it does not
    qualify for teardown when the sweep of this same call reaches its
    entry (it is owned outside the manager, or it is PLAYING or
    SCHEDULED). *)
Theorem register_then_connect m0 (src : node_id) (param : param_id) m1 m2 :
  spsc.buffer (receiver_ m0) = [] ->
  addSourceNode src m0 = Some m1 ->
  addPendingParamConnection src param CONNECT m1 = Some m2 ->
  exists ms,
    settlePendingConnections m2 = Ok ms /\
    sourceNodes_ ms = sourceNodes_ m0 ++ [src] /\
    env ms = connectParam src param (env m0) /\
    trace ms = trace m0 ++ [CallConnectParam src param] /\
    preProcessGraph m2 = Ok (prepareNodesForDestruction ms) /\
    In (CallConnectParam src param) (trace (prepareNodesForDestruction ms)) /\
    forall kept mv,
      sweepPrefix Sources [] (sourceNodes_ m0) [src] ms = (kept, mv) ->
      qualifiesSource mv src = false ->
      In src (sourceNodes_ (prepareNodesForDestruction ms)).
Proof.
  intros Hempty H1 H2.
  unfold addSourceNode in H1. unfold addPendingParamConnection in H2.
  destruct (send_event_effect _ _ _ H1) as (Hb1 & Hc1 & He1 & Hs1 & Hp1 & Ha1 & Hd1 & Ht1).
  destruct (send_event_effect _ _ _ H2) as (Hb2 & Hc2 & He2 & Hs2 & Hp2 & Ha2 & Hd2 & Ht2).
  rewrite Hb1, Hempty in Hb2. simpl in Hb2.
  set (q := spsc.mkChannel (spsc.capacity (receiver_ m2)) (@nil Event)).
  set (ms := call (CallConnectParam src param) (connectParam src param)
               (set_receiver q (set_sourceNodes (sourceNodes_ m2 ++ [src]) m2))).
  assert (Hsettle : settlePendingConnections m2 = Ok ms).
  { rewrite settle_in_order, Hb2. reflexivity. }
  exists ms. split; [exact Hsettle|].
  assert (Hsrc : sourceNodes_ ms = sourceNodes_ m0 ++ [src])
    by (unfold ms; simpl; congruence).
  assert (Htr : trace ms = trace m0 ++ [CallConnectParam src param])
    by (unfold ms; simpl; congruence).
  split; [exact Hsrc|].
  split; [unfold ms; simpl; congruence|].
  split; [exact Htr|].
  split; [unfold preProcessGraph; rewrite Hsettle; reflexivity|].
  split.
  - rewrite (prepare_split Sources).
    destruct (finishSweep_frame Sources
                (sweepNodes Sources [] (tracked Sources (loopStart Sources ms))
                   (loopStart Sources ms))) as (_ & _ & _ & _ & (d & Hd)).
    destruct (sweepNodes_frame Sources [] (tracked Sources (loopStart Sources ms))
                (loopStart Sources ms)) as (_ & _ & _ & _ & _ & (d' & Hd')).
    rewrite Hd, Hd'. simpl loopStart. rewrite Htr.
    apply in_or_app. left. apply in_or_app. left. apply in_or_app. right. now left.
  - intros kept mv Hp Hq.
    apply (passed_over Sources ms (sourceNodes_ m0) src [] kept mv Hsrc Hp Hq).
Qed.

(** ** The earlier revision *)

Lemma legacy_set_insert_NoDup (x : nat) (l : list nat) :
  NoDup l -> NoDup (Legacy.set_insert x l).
Proof.
  intros Hnd. unfold Legacy.set_insert.
  destruct (existsb (Nat.eqb x) l) eqn:Hex; [exact Hnd|].
  apply NoDup_app; [exact Hnd|repeat constructor; intros []|].
  intros y Hy Hy'. destruct Hy' as [Hxy|[]]. subst y.
  assert (Htrue : existsb (Nat.eqb x) l = true)
    by (apply existsb_exists; exists x; split; [exact Hy|apply Nat.eqb_refl]).
  congruence.
Qed.

(** With [insert] into a set, a second ADD of a tracked identity changes
    nothing: the earlier revision had the set semantics the current
    [push_back] lacks. *)
Lemma legacy_handleAddEvent_set_semantics event m m' :
  NoDup (sourceNodes_ m) -> NoDup (processingNodes_ m) -> NoDup (audioParams_ m) ->
  Legacy.handleAddEvent event m = Ok m' ->
  NoDup (sourceNodes_ m') /\ NoDup (processingNodes_ m') /\ NoDup (audioParams_ m').
Proof.
  intros Hs Hp Ha. unfold Legacy.handleAddEvent.
  destruct (payload event); intros Hh; try discriminate;
    inversion Hh; subst; simpl; repeat split;
    try assumption; now apply legacy_set_insert_NoDup.
Qed.

(** The earlier revision asserted a node pair in every CONNECT event. *)
Lemma legacy_handleConnectEvent_rejects_params from to m :
  Legacy.handleConnectEvent (mkEvent CONNECT (payload_params from to)) m
  = Abort AssertionFailed.
Proof. reflexivity. Qed.

(** The earlier revision erased a qualifying entry whatever the
    destructor answered. *)
Lemma legacy_visit_erases_regardless add n m :
  qualifiesSource m n = true -> fst (Legacy.visitSourceNode add n m) = true.
Proof. unfold Legacy.visitSourceNode. now intros ->. Qed.

Lemma legacy_cleanup_keeps_params m :
  audioParams_ (Legacy.cleanup m) = audioParams_ m.
Proof.
  unfold Legacy.cleanup. simpl.
  destruct (cleanup_all_spec (sourceNodes_ m) m) as (_ & _ & _ & _ & Ha1 & _).
  destruct (cleanup_all_spec (processingNodes_ (cleanup_all (sourceNodes_ m) m))
              (cleanup_all (sourceNodes_ m) m)) as (_ & _ & _ & _ & Ha2 & _).
  now rewrite Ha2, Ha1.
Qed.

End Properties.

(** * The manager on the concrete graph *)

Lemma nodup_remove_comm (x : nat) (l : list nat) :
  nodup Nat.eq_dec (remove Nat.eq_dec x l) = remove Nat.eq_dec x (nodup Nat.eq_dec l).
Proof.
  induction l as [|y l IH]; [reflexivity|]. simpl.
  destruct (Nat.eq_dec x y) as [<-|Hne].
  - destruct (in_dec Nat.eq_dec x l); [exact IH|].
    simpl. destruct (Nat.eq_dec x x); [exact IH|contradiction].
  - simpl. destruct (in_dec Nat.eq_dec y (remove Nat.eq_dec x l)) as [Hin|Hout];
      destruct (in_dec Nat.eq_dec y l) as [Hin'|Hout'].
    + exact IH.
    + apply in_remove in Hin. destruct Hin. contradiction.
    + elim Hout. apply in_in_remove; [congruence|exact Hin'].
    + simpl. destruct (Nat.eq_dec x y); [contradiction|]. now rewrite IH.
Qed.

Lemma SpecGraph_outputs_are_sets : @outputs_are_sets SpecGraph.World SpecGraph.graph.
Proof. intros w a. simpl. apply NoDup_nodup. Qed.

Lemma SpecGraph_disconnectNode_erases :
  @disconnectNode_erases SpecGraph.World SpecGraph.graph.
Proof.
  intros w a x. simpl. unfold SpecGraph.update. rewrite Nat.eqb_refl. simpl.
  apply nodup_remove_comm.
Qed.

(** ** Runs of the guards *)

(** The refcount guard on node 1 of [fan_out_manager]: one owner outside the
    manager and the tracked entry make a use count of 2. *)
Lemma refcount_guard_witness :
  1 < use_count SpecGraph.fan_out_manager 1 /\
  In 1 (sourceNodes_ (prepareNodesForDestruction SpecGraph.fan_out_manager)).
Proof.
  assert (Hcount : 1 < use_count SpecGraph.fan_out_manager 1) by (vm_compute; lia).
  split; [exact Hcount|].
  exact (proj2 (proj2 (proj2 (refcount_guard Sources SpecGraph.fan_out_manager [] 1 [] []
                         SpecGraph.fan_out_manager eq_refl eq_refl Hcount)))).
Defined.

(** The playback guard on node 1 of [tracked_once]: use count 1, PLAYING. *)
Lemma playback_guard_witness :
  use_count SpecGraph.tracked_once 1 = 1 /\
  visitSourceNode 1 SpecGraph.tracked_once = (false, SpecGraph.tracked_once) /\
  In 1 (sourceNodes_ (prepareNodesForDestruction SpecGraph.tracked_once)).
Proof.
  split; [reflexivity|].
  assert (Hplaying : playbackState (env SpecGraph.tracked_once) 1 = PLAYING
                     \/ playbackState (env SpecGraph.tracked_once) 1 = SCHEDULED)
    by (left; reflexivity).
  destruct (playback_guard SpecGraph.tracked_once [] 1 [] [] SpecGraph.tracked_once
              eq_refl eq_refl Hplaying) as (_ & _ & Hv & _ & _ & Hin).
  split; [exact Hv|exact Hin].
Defined.

(** ** Scenario A *)

(** Scenario A fails on a source node that only the manager owns: the sweep
    of the same [preProcessGraph] call cleans it up, retires it and erases
    it from the source vector. *)
Lemma scenario_A_counterexample : ~ scenario_A SpecGraph.scenario_A_start 1 7.
Proof.
  intros Hclaim.
  pose (m1 := SpecGraph.force (addSourceNode 1 SpecGraph.scenario_A_start)
                SpecGraph.scenario_A_start).
  pose (m2 := SpecGraph.force (addPendingParamConnection 1 7 CONNECT m1) m1).
  pose (m3 := SpecGraph.force (SpecGraph.render (Some m2)) m2).
  destruct (Hclaim m1 m2 m3 eq_refl eq_refl eq_refl eq_refl) as (Hin & _).
  vm_compute in Hin. exact Hin.
Defined.

(** Scenario A on node 1 of the graph [fan_out], which has an owner outside
    the manager. *)
Lemma register_then_connect_witness :
  exists ms,
    preProcessGraph
      (SpecGraph.force
         (SpecGraph.run (addSourceNode 1 (SpecGraph.manager SpecGraph.fan_out 16))
            (addPendingParamConnection 1 7 CONNECT))
         (SpecGraph.manager SpecGraph.fan_out 16))
    = Ok (prepareNodesForDestruction ms) /\
    In (CallConnectParam 1 7) (trace (prepareNodesForDestruction ms)) /\
    In 1 (sourceNodes_ (prepareNodesForDestruction ms)).
Proof.
  pose (m0 := SpecGraph.manager SpecGraph.fan_out 16).
  pose (m1 := SpecGraph.force (addSourceNode 1 m0) m0).
  pose (m2 := SpecGraph.force (addPendingParamConnection 1 7 CONNECT m1) m1).
  destruct (register_then_connect m0 1 7 m1 m2 eq_refl eq_refl eq_refl)
    as (ms & Hsettle & _ & _ & _ & Hpre & Hcall & Hkeep).
  exists ms. split; [exact Hpre|]. split; [exact Hcall|].
  apply (Hkeep [] ms); [reflexivity|].
  vm_compute in Hsettle. inversion Hsettle; subst ms. reflexivity.
Defined.

(** ** Shutdown *)


(** ** Backpressure *)

(** Node 5 of [destructor_busy]: the first sweep finds the destructor's
    channel full and keeps the node; the destructor's thread takes node 9
    out; the next sweep retires node 5. *)
Lemma backpressure_retry_witness :
  In 5 (sourceNodes_ (prepareNodesForDestruction SpecGraph.destructor_busy)) /\
  In 5 (spsc.buffer (nodeDeconstructor_
          (prepareNodesForDestruction
             (AudioNodeDestructor_process
                (prepareNodesForDestruction SpecGraph.destructor_busy))))) /\
  ~ In 5 (sourceNodes_
            (prepareNodesForDestruction
               (AudioNodeDestructor_process
                  (prepareNodesForDestruction SpecGraph.destructor_busy)))).
Proof.
  pose (m := SpecGraph.destructor_busy).
  pose (m' := AudioNodeDestructor_process (prepareNodesForDestruction m)).
  assert (Hq : qualifies Sources m 5 = true) by (vm_compute; reflexivity).
  assert (Hq' : qualifies Sources m' 5 = true) by (vm_compute; reflexivity).
  destruct (backpressure_retry Sources m [] 5 [] [] m eq_refl eq_refl Hq)
    as (Hfull & _).
  destruct (backpressure_retry Sources m' [] 5 [] [] m' eq_refl eq_refl Hq')
    as (_ & Hroom).
  destruct (Hfull eq_refl) as (_ & _ & Hkept).
  destruct (Hroom eq_refl) as (_ & _ & Hqueued & Hgone).
  split; [exact Hkept|]. split; [exact Hqueued|exact Hgone].
Defined.

(** ** Registration *)

(** Set semantics fail for a second ADD of source node 1: the source vector
    then holds two entries of it. *)
Lemma add_has_set_semantics_counterexample :
  ~ add_has_set_semantics SpecGraph.tracked_once (mkEvent ADD (payload_sourceNode 1)).
Proof.
  intros Hclaim. destruct (Hclaim _ eq_refl) as (Hsources & _).
  specialize (Hsources 1). vm_compute in Hsources. lia.
Defined.

(** ** Disconnect-all *)

(** DISCONNECT_ALL on node 1 of [fan_out_manager] with its edges to the
    nodes 2, 3 and 4. *)
Lemma disconnect_all_witness :
  exists m',
    handleDisconnectAllEvent (mkEvent DISCONNECT_ALL (payload_nodes 1 0))
      SpecGraph.fan_out_manager = Ok m' /\
    outputNodes_ (env m') 1 = [] /\
    trace m' = [CallDisconnectNode 1 2; CallDisconnectNode 1 3; CallDisconnectNode 1 4].
Proof.
  assert (Hset : NoDup (outputNodes_ (env SpecGraph.fan_out_manager) 1))
    by apply SpecGraph_outputs_are_sets.
  destruct (disconnect_all_removes_every_edge SpecGraph.fan_out_manager 1 0 Hset
              (fun w x => SpecGraph_disconnectNode_erases w 1 x))
    as (m' & Hh & _ & Hout & Htr & _).
  exists m'. split; [exact Hh|]. split; [exact Hout|exact Htr].
Defined.

(** ** Cleanup across sweeps *)

(** Node 5 of [destructor_busy] qualifies in the sweeps of two render
    quanta; between them the destructor's thread runs and the second drain
    applies a connection request, which logs a call: cleanup is invoked
    twice. *)
Lemma cleanup_each_qualifying_sweep_witness :
  In (CallConnectNode 1 2) (trace SpecGraph.second_quantum_start) /\
  cleanup_calls 5 (trace (prepareNodesForDestruction SpecGraph.second_quantum_start))
  = cleanup_calls 5 (trace SpecGraph.destructor_busy) + 2.
Proof.
  pose (m := SpecGraph.destructor_busy).
  pose (m1 := SpecGraph.second_quantum_start).
  pose (m2 := prepareNodesForDestruction m1).
  assert (Hrun : qualifying_sweeps Sources 5 2 m m2).
  { apply qualifying_sweeps_S with (pre := []) (post := []) (kept := []) (mv := m) (m1 := m1);
      [reflexivity|reflexivity|vm_compute; reflexivity|vm_compute; reflexivity|].
    apply qualifying_sweeps_S with (pre := []) (post := []) (kept := []) (mv := m1) (m1 := m2);
      [vm_compute; reflexivity|vm_compute; reflexivity|vm_compute; reflexivity
      |reflexivity|].
    apply qualifying_sweeps_0. }
  split.
  - vm_compute. tauto.
  - exact (proj1 (proj2 (cleanup_each_qualifying_sweep Sources 5 2 m m2 Hrun))).
Defined.

(** * Further properties of the manager *)

Section MoreProperties.

Context {W : Type} `{AudioGraph W}.

Implicit Types (m : Manager W) (n x : node_id) (s : TrackedSet).

(** ** What a sweep does, entry by entry *)

Lemma visitNode_outcome s n m :
  (qualifies s m n = false /\ visitNode s n m = (false, m)) \/
  (qualifies s m n = true /\
   exists erased m',
     visitNode s n m = (erased, m') /\
     trace m' = trace m ++ attempt_calls (n, erased) /\
     env m' = node_cleanup n (env m) /\
     spsc.buffer (nodeDeconstructor_ m')
     = spsc.buffer (nodeDeconstructor_ m) ++ retired [(n, erased)]).
Proof.
  destruct (qualifies s m n) eqn:Hq.
  - right. split; [reflexivity|].
    rewrite (visitNode_qualifying s n m Hq).
    destruct (spsc.is_full (nodeDeconstructor_ m)).
    + eexists; eexists. split; [reflexivity|]. simpl.
      rewrite <- app_assoc, app_nil_r. repeat split.
    + eexists; eexists. split; [reflexivity|]. simpl.
      rewrite <- app_assoc. repeat split.
  - left. split; [reflexivity|]. apply visitNode_skip. exact Hq.
Qed.

Lemma cleanups_cons a attempts (w : W) :
  cleanups (a :: attempts) w = cleanups attempts (node_cleanup (fst a) w).
Proof. reflexivity. Qed.

Lemma cleanups_app a1 a2 (w : W) :
  cleanups (a1 ++ a2) w = cleanups a2 (cleanups a1 w).
Proof. unfold cleanups. apply fold_left_app. Qed.

Lemma retired_app (a1 a2 : list Attempt) : retired (a1 ++ a2) = retired a1 ++ retired a2.
Proof. unfold retired. now rewrite filter_app, map_app. Qed.

(** The attempts of a stretch of visits account for everything the
    stretch does. *)
Lemma sweepPrefix_attempts s pre : forall kept post m k m1,
  sweepPrefix s kept pre post m = (k, m1) ->
  exists attempts l,
    k = kept ++ l /\
    trace m1 = trace m ++ flat_map attempt_calls attempts /\
    env m1 = cleanups attempts (env m) /\
    spsc.buffer (nodeDeconstructor_ m1)
    = spsc.buffer (nodeDeconstructor_ m) ++ retired attempts /\
    Permutation pre (l ++ retired attempts) /\
    incl (map fst attempts) pre.
Proof.
  induction pre as [|n pre IH]; intros kept post m k m1 Hp.
  - simpl in Hp. inversion Hp; subst. exists [], []. simpl.
    rewrite !app_nil_r. repeat split; auto using incl_nil_l.
  - rewrite sweepPrefix_cons in Hp.
    destruct (visitNode_outcome s n m) as [(_ & Hv)|(_ & erased & m' & Hv & Ht & He & Hb)];
      rewrite Hv in Hp; cbn [fst snd] in Hp.
    + destruct (IH _ _ _ _ _ Hp) as (attempts & l & -> & Ht' & He' & Hb' & Hperm & Hincl).
      exists attempts, (n :: l). rewrite <- app_assoc.
      repeat split; try assumption.
      * simpl. now apply perm_skip.
      * now apply incl_tl.
    + destruct erased.
      * destruct (IH _ _ _ _ _ Hp) as (attempts & l & -> & Ht' & He' & Hb' & Hperm & Hincl).
        exists ((n, true) :: attempts), l.
        replace (trace (set_tracked s (kept ++ pre ++ post) m')) with (trace m') in Ht'
          by (destruct s; reflexivity).
        replace (env (set_tracked s (kept ++ pre ++ post) m')) with (env m') in He'
          by (destruct s; reflexivity).
        replace (spsc.buffer (nodeDeconstructor_ (set_tracked s (kept ++ pre ++ post) m')))
          with (spsc.buffer (nodeDeconstructor_ m')) in Hb' by (destruct s; reflexivity).
        split; [reflexivity|]. split.
        { rewrite Ht', Ht. simpl. now rewrite <- app_assoc. }
        split; [rewrite He', He; reflexivity|]. split.
        { rewrite Hb', Hb. unfold retired. simpl. now rewrite <- app_assoc. }
        split.
        { unfold retired. simpl. now apply Permutation_cons_app. }
        simpl. apply incl_cons; [now left|now apply incl_tl].
      * destruct (IH _ _ _ _ _ Hp) as (attempts & l & -> & Ht' & He' & Hb' & Hperm & Hincl).
        exists ((n, false) :: attempts), (n :: l). rewrite <- app_assoc.
        split; [reflexivity|]. split.
        { rewrite Ht', Ht. simpl. now rewrite <- app_assoc. }
        split; [rewrite He', He; reflexivity|]. split.
        { rewrite Hb', Hb. unfold retired. simpl. now rewrite app_nil_r. }
        split.
        { unfold retired. simpl. now apply perm_skip. }
        simpl. apply incl_cons; [now left|now apply incl_tl].
Qed.

Lemma sweepNodes_attempts s m :
  exists attempts,
    trace (sweepNodes s [] (tracked s m) m) = trace m ++ flat_map attempt_calls attempts /\
    env (sweepNodes s [] (tracked s m) m) = cleanups attempts (env m) /\
    spsc.buffer (nodeDeconstructor_ (sweepNodes s [] (tracked s m) m))
    = spsc.buffer (nodeDeconstructor_ m) ++ retired attempts /\
    Permutation (tracked s m)
      (tracked s (sweepNodes s [] (tracked s m) m) ++ retired attempts) /\
    incl (map fst attempts) (tracked s m).
Proof.
  rewrite sweepNodes_as_prefix.
  destruct (sweepPrefix s [] (tracked s m) [] m) as [k m1] eqn:Hp. simpl snd.
  assert (Ht : tracked s m = [] ++ tracked s m ++ []) by now rewrite app_nil_r.
  pose proof (sweepPrefix_tracked s (tracked s m) [] [] m k m1 Ht Hp) as Hk.
  rewrite app_nil_r in Hk.
  destruct (sweepPrefix_attempts s (tracked s m) [] [] m k m1 Hp)
    as (attempts & l & Hkl & Htr & He & Hb & Hperm & Hincl).
  simpl in Hkl. rewrite Hkl in Hk. exists attempts. rewrite Hk. repeat split; assumption.
Qed.

(** The whole sweep in terms of its attempts. *)
Lemma prepare_attempts m :
  exists attempts,
    trace (prepareNodesForDestruction m) = trace m ++ flat_map attempt_calls attempts /\
    env (prepareNodesForDestruction m) = cleanups attempts (env m) /\
    spsc.buffer (nodeDeconstructor_ (prepareNodesForDestruction m))
    = spsc.buffer (nodeDeconstructor_ m) ++ retired attempts /\
    Permutation (sourceNodes_ m ++ processingNodes_ m)
      (sourceNodes_ (prepareNodesForDestruction m)
       ++ processingNodes_ (prepareNodesForDestruction m) ++ retired attempts) /\
    incl (map fst attempts) (sourceNodes_ m ++ processingNodes_ m).
Proof.
  unfold prepareNodesForDestruction, sweepProcessing.
  set (ms := sweepSourceNodes [] (sourceNodes_ m) m).
  destruct (sweepNodes_attempts Sources m) as (a1 & Ht1 & He1 & Hb1 & Hp1 & Hi1).
  destruct (sweepNodes_attempts Processors ms) as (a2 & Ht2 & He2 & Hb2 & Hp2 & Hi2).
  simpl in Ht1, He1, Hb1, Hp1, Hi1, Ht2, He2, Hb2, Hp2, Hi2. fold ms in Ht1, He1, Hb1, Hp1.
  destruct (sweepNodes_frame Sources [] (sourceNodes_ m) m) as (_ & _ & Ho1 & _).
  assert (Hpm : processingNodes_ ms = processingNodes_ m)
    by (apply (Ho1 Processors); discriminate).
  rewrite Hpm in Ht2, He2, Hb2, Hp2, Hi2 |- *.
  destruct (sweepNodes_frame Processors [] (processingNodes_ m) ms) as (_ & _ & Ho2 & _).
  assert (Hsm : sourceNodes_ (sweepProcessingNodes [] (processingNodes_ m) ms)
                = sourceNodes_ ms) by (apply (Ho2 Sources); discriminate).
  exists (a1 ++ a2). split; [|split; [|split; [|split]]].
  - rewrite Ht2, Ht1, flat_map_app. now rewrite <- app_assoc.
  - rewrite He2, He1. symmetry. apply cleanups_app.
  - rewrite Hb2, Hb1, retired_app. now rewrite <- app_assoc.
  - rewrite Hsm, retired_app.
    rewrite Hp1 at 1. rewrite Hp2 at 1. rewrite <- !app_assoc.
    apply Permutation_app_head.
    rewrite (app_assoc (retired a1)), (app_assoc _ (retired a1)).
    apply Permutation_app_tail. apply Permutation_app_comm.
  - rewrite map_app.
    apply incl_app; [apply incl_appl|apply incl_appr]; assumption.
Qed.

(** X1.  A sweep loses no handle and makes none up: the entries of the
    two tracked vectors before the sweep are, up to order, the entries
    after it together with the handles it has put into the destructor's
    channel, which it only appends to. *)
Theorem sweep_conserves_handles m :
  exists handed_over,
    spsc.buffer (nodeDeconstructor_ (prepareNodesForDestruction m))
    = spsc.buffer (nodeDeconstructor_ m) ++ handed_over /\
    Permutation (sourceNodes_ m ++ processingNodes_ m)
      (sourceNodes_ (prepareNodesForDestruction m)
       ++ processingNodes_ (prepareNodesForDestruction m) ++ handed_over) /\
    forall n,
      entries (prepareNodesForDestruction m) n
      + count_occ Nat.eq_dec
          (spsc.buffer (nodeDeconstructor_ (prepareNodesForDestruction m))) n
      = entries m n + count_occ Nat.eq_dec (spsc.buffer (nodeDeconstructor_ m)) n.
Proof.
  destruct (prepare_attempts m) as (attempts & _ & _ & Hb & Hperm & _).
  exists (retired attempts). split; [exact Hb|]. split; [exact Hperm|].
  intros n. rewrite Hb. unfold entries.
  assert (Hc := proj1 (Permutation_count_occ Nat.eq_dec _ _) Hperm n).
  rewrite !count_occ_app in Hc.
  rewrite !count_occ_app. count_lia.
Qed.

(** X2.  The only calls a sweep issues are pairs of a cleanup and the
    retire attempt that follows it, each on a node that was tracked when
    the sweep began; the graph changes through these cleanups alone, the
    handles the destructor accepted are appended to its channel in the
    order of the attempts, and the mutation channel is not touched. *)
Theorem sweep_is_cleanup_then_retire m :
  exists attempts,
    trace (prepareNodesForDestruction m) = trace m ++ flat_map attempt_calls attempts /\
    env (prepareNodesForDestruction m) = cleanups attempts (env m) /\
    spsc.buffer (nodeDeconstructor_ (prepareNodesForDestruction m))
    = spsc.buffer (nodeDeconstructor_ m) ++ retired attempts /\
    incl (map fst attempts) (sourceNodes_ m ++ processingNodes_ m) /\
    receiver_ (prepareNodesForDestruction m) = receiver_ m.
Proof.
  destruct (prepare_attempts m) as (attempts & Ht & He & Hb & _ & Hi).
  exists attempts. repeat split; try assumption.
  rewrite (prepare_split Sources).
  destruct (finishSweep_frame Sources
              (sweepNodes Sources [] (tracked Sources (loopStart Sources m))
                 (loopStart Sources m))) as (_ & Hr & _).
  rewrite Hr.
  now destruct (sweepNodes_frame Sources [] (tracked Sources (loopStart Sources m))
                  (loopStart Sources m)) as (Hr' & _).
Qed.

(** ** A sweep with nothing to do *)

Lemma sweepNodes_idle s rest : forall kept m,
  (forall x, In x rest -> qualifies s m x = false) ->
  sweepNodes s kept rest m = m.
Proof.
  induction rest as [|n rest IH]; intros kept m Hq.
  - apply sweepNodes_nil.
  - rewrite sweepNodes_cons, (visitNode_skip s n m) by (apply Hq; now left).
    simpl. apply IH. intros x Hx. apply Hq. now right.
Qed.

Lemma sweepNodes_trace_le s kept rest m :
  length (trace m) <= length (trace (sweepNodes s kept rest m)).
Proof.
  destruct (sweepNodes_frame s kept rest m) as (_ & _ & _ & _ & _ & (d & ->)).
  rewrite length_app. lia.
Qed.

Lemma sweepNodes_busy s rest : forall kept m,
  (exists x, In x rest /\ qualifies s m x = true) ->
  length (trace m) < length (trace (sweepNodes s kept rest m)).
Proof.
  induction rest as [|n rest IH]; intros kept m (x & Hx & Hq).
  - destruct Hx.
  - rewrite sweepNodes_cons.
    destruct (visitNode_outcome s n m) as [(Hn & Hv)|(_ & erased & m' & Hv & Ht & _)];
      rewrite Hv; cbn [fst snd].
    + apply IH. exists x. split; [|exact Hq].
      destruct Hx as [<-|Hx]; [congruence|exact Hx].
    + assert (Hlen : length (trace m) < length (trace m'))
        by (rewrite Ht, length_app; simpl; lia).
      destruct erased.
      * eapply Nat.lt_le_trans; [exact Hlen|].
        replace (trace m') with (trace (set_tracked s (kept ++ rest) m'))
          by (destruct s; reflexivity).
        apply sweepNodes_trace_le.
      * eapply Nat.lt_le_trans; [exact Hlen|]. apply sweepNodes_trace_le.
Qed.

Lemma some_or_none_qualifies s m (l : list node_id) :
  (exists x, In x l /\ qualifies s m x = true) \/
  (forall x, In x l -> qualifies s m x = false).
Proof.
  induction l as [|n l [(x & Hx & Hq)|Hnone]].
  - right. intros x [].
  - left. exists x. split; [now right|exact Hq].
  - destruct (qualifies s m n) eqn:Hn.
    + left. exists n. split; [now left|exact Hn].
    + right. intros x [<-|Hx]; [exact Hn|now apply Hnone].
Qed.

(** X3.  A sweep changes the manager exactly when some tracked entry
    passes the test of its loop; when none does and the mutation channel
    is empty, a whole render quantum leaves the manager as it is. *)
Theorem idle_sweep_changes_nothing m :
  (prepareNodesForDestruction m = m <-> no_entry_qualifies m) /\
  (no_entry_qualifies m -> spsc.buffer (receiver_ m) = [] -> preProcessGraph m = Ok m).
Proof.
  assert (Hidle : no_entry_qualifies m -> prepareNodesForDestruction m = m).
  { intros (Hs & Hp). unfold prepareNodesForDestruction, sweepProcessing.
    pose proof (sweepNodes_idle Sources (sourceNodes_ m) [] m Hs) as E1.
    simpl in E1. rewrite E1.
    apply (sweepNodes_idle Processors (processingNodes_ m) [] m Hp). }
  split; [split; [|exact Hidle]|].
  - intros Hsame.
    assert (Hlen : length (trace (prepareNodesForDestruction m)) = length (trace m))
      by now rewrite Hsame.
    unfold prepareNodesForDestruction, sweepProcessing in Hlen.
    set (ms := sweepSourceNodes [] (sourceNodes_ m) m) in *.
    pose proof (sweepNodes_trace_le Processors [] (processingNodes_ ms) ms) as Hle2.
    simpl in Hle2.
    destruct (some_or_none_qualifies Sources m (sourceNodes_ m)) as [Hsome|Hs].
    + pose proof (sweepNodes_busy Sources (sourceNodes_ m) [] m Hsome) as Hlt.
      simpl in Hlt. fold ms in Hlt. lia.
    + assert (Hms : ms = m) by apply (sweepNodes_idle Sources (sourceNodes_ m) [] m Hs).
      rewrite Hms in *.
      destruct (some_or_none_qualifies Processors m (processingNodes_ m)) as [Hsome|Hp].
      * pose proof (sweepNodes_busy Processors (processingNodes_ m) [] m Hsome) as Hlt.
        simpl in Hlt. lia.
      * split; assumption.
  - intros Hnone Hempty. unfold preProcessGraph, settlePendingConnections.
    rewrite Hempty. simpl. unfold spsc.try_receive. rewrite Hempty. simpl.
    now rewrite (Hidle Hnone).
Qed.

(** ** A node with two tracked entries *)

Lemma twice_tracked_one_sweep m n :
  2 <= entries m n ->
  teardown_calls n (trace (prepareNodesForDestruction m)) = teardown_calls n (trace m) /\
  entries (prepareNodesForDestruction m) n = entries m n.
Proof.
  intros H2. unfold prepareNodesForDestruction, sweepProcessing.
  destruct (sweepNodes_quiet Sources n [] (sourceNodes_ m) m eq_refl (fun _ => H2))
    as ((d1 & Hd1 & Hq1) & He1 & _).
  simpl in Hd1, He1.
  set (ms := sweepSourceNodes [] (sourceNodes_ m) m) in *.
  assert (H2' : 2 <= entries ms n) by now rewrite He1.
  destruct (sweepNodes_quiet Processors n [] (processingNodes_ ms) ms eq_refl (fun _ => H2'))
    as ((d2 & Hd2 & Hq2) & He2 & _).
  simpl in Hd2, He2. split.
  - rewrite Hd2, Hd1, <- app_assoc. apply quiet_teardown_calls. now apply quiet_app.
  - now rewrite He2.
Qed.

(** X4.  A node that two tracked entries hold (it was registered twice, or
    as a source and as a processing node) is out of the sweep's reach: over
    any number of sweeps in a row no cleanup and no retire attempt is
    issued on it and it keeps all its entries, whatever its playback state
    and whoever else owns it. *)
Theorem twice_tracked_is_never_retired m n k :
  2 <= entries m n ->
  teardown_calls n (trace (sweeps k m)) = teardown_calls n (trace m) /\
  entries (sweeps k m) n = entries m n.
Proof.
  intros H2. induction k as [|k (IHt & IHe)].
  - split; reflexivity.
  - change (sweeps (S k) m) with (prepareNodesForDestruction (sweeps k m)).
    destruct (twice_tracked_one_sweep (sweeps k m) n) as (Ht & He).
    { now rewrite IHe. }
    split; congruence.
Qed.

(** ** Shutdown *)

(** X5.  Shutdown works on the tracked vectors only: the events still
    queued in the mutation channel are neither applied nor dropped, the
    destructor's channel is left alone, the graph changes through the
    cleanups of the source entries and then of the processing entries, and
    a node without a tracked entry (one whose ADD event is still queued,
    for instance) is not cleaned up.  It is idempotent: a second
    [cleanup], as the destructor of the manager runs after an explicit
    shutdown, changes nothing, and neither does a sweep after shutdown. *)
Theorem shutdown_leaves_channels_alone m :
  receiver_ (cleanup m) = receiver_ m /\
  nodeDeconstructor_ (cleanup m) = nodeDeconstructor_ m /\
  env (cleanup m)
  = fold_left (fun w n => node_cleanup n w) (sourceNodes_ m ++ processingNodes_ m) (env m) /\
  (forall n, entries m n = 0 ->
             cleanup_calls n (trace (cleanup m)) = cleanup_calls n (trace m)) /\
  cleanup (cleanup m) = cleanup m /\
  prepareNodesForDestruction (cleanup m) = cleanup m.
Proof.
  assert (Hidem : cleanup (cleanup m) = cleanup m /\
                  prepareNodesForDestruction (cleanup m) = cleanup m)
    by (split; reflexivity).
  destruct Hidem as (Hidem1 & Hidem2).
  cut (receiver_ (cleanup m) = receiver_ m /\
       nodeDeconstructor_ (cleanup m) = nodeDeconstructor_ m /\
       env (cleanup m)
       = fold_left (fun w n => node_cleanup n w)
           (sourceNodes_ m ++ processingNodes_ m) (env m) /\
       (forall n, entries m n = 0 ->
                  cleanup_calls n (trace (cleanup m)) = cleanup_calls n (trace m))).
  { intros (A & B & C & D). repeat split; assumption. }
  destruct (cleanup_all_spec (sourceNodes_ m) m) as (_ & Hr1 & _ & Hp1 & _ & Hd1 & He1).
  destruct (cleanup_all_spec (processingNodes_ (cleanup_all (sourceNodes_ m) m))
              (cleanup_all (sourceNodes_ m) m)) as (_ & Hr2 & _ & _ & _ & Hd2 & He2).
  unfold cleanup. simpl. split; [congruence|]. split; [congruence|]. split.
  - rewrite He2, He1, Hp1. symmetry. apply fold_left_app.
  - intros n Hn.
    pose proof (cleanup_trace m) as Ht. unfold cleanup in Ht. simpl in Ht. rewrite Ht.
    rewrite !cleanup_calls_app, !cleanup_calls_map. unfold entries in Hn. lia.
Qed.

(** ** Events the handlers reject *)

Lemma disconnectAll_loop_never_asserts from fuel : forall it m,
  disconnectAll_loop fuel from it m <> Abort AssertionFailed.
Proof.
  induction fuel as [|fuel IH]; intros it m; destruct it as [x|]; simpl; try discriminate.
  destruct (iterator_valid (outputNodes_ (env m) from) x); [apply IH|discriminate].
Qed.

Lemma dispatch_rejects event m :
  event_ok event = false -> dispatch event m = Abort AssertionFailed.
Proof.
  destruct event as [t p]. unfold event_ok, payloadType, dispatch. simpl.
  destruct t; destruct p; simpl; intros Hok; try discriminate; reflexivity.
Qed.

(** X6.  In a build with assertions enabled ([NDEBUG] not defined, the
    build this development models), the handlers fail their assertion on
    exactly the events whose payload does not fit the type: CONNECT and
    DISCONNECT take a node pair or a node and a parameter, DISCONNECT_ALL
    a node pair, ADD a single node, source node or parameter.  On every
    other event, [ADD] with a node pair as [addPendingNodeConnection] can
    produce it for instance, the handler stops at its [assert]; on the
    events listed it never does.  With [NDEBUG] defined the [assert]s
    expand to nothing and this statement says nothing about the
    handlers. *)
Theorem assertion_fails_on_misfit_payload event m :
  dispatch event m = Abort AssertionFailed <-> event_ok event = false.
Proof.
  split; [|apply dispatch_rejects].
  destruct (event_ok event) eqn:Hok; [|reflexivity].
  intros Hd. exfalso. destruct event as [t p].
  unfold event_ok, payloadType in Hok. unfold dispatch in Hd. simpl in Hok, Hd.
  destruct t; destruct p; simpl in Hok; try discriminate Hok;
    try discriminate Hd.
  exact (disconnectAll_loop_never_asserts _ _ _ _ Hd).
Qed.

Lemma dispatch_in_order_ok events : forall m m',
  dispatch_in_enqueue_order events m = Ok m' -> forallb event_ok events = true.
Proof.
  induction events as [|event events IH]; intros m m' Hd; [reflexivity|].
  simpl in Hd. simpl.
  destruct (event_ok event) eqn:Hok.
  - destruct (dispatch event _) as [m1|f]; simpl in Hd; [|discriminate].
    simpl. exact (IH _ _ Hd).
  - rewrite (dispatch_rejects _ _ Hok) in Hd. discriminate.
Qed.

(** X7.  In a build with assertions enabled ([NDEBUG] not defined, the
    build this development models), one misfit event anywhere in the
    mutation channel keeps the drain from returning:
    [settlePendingConnections] returns only if every queued event carries
    a payload that fits its type.  With [NDEBUG] defined the [assert]s
    expand to nothing and this statement does not apply. *)
Theorem misfit_event_stops_the_drain m event :
  In event (spsc.buffer (receiver_ m)) ->
  event_ok event = false ->
  forall m', settlePendingConnections m <> Ok m'.
Proof.
  intros Hin Hbad m' Hs. rewrite settle_in_order in Hs.
  apply dispatch_in_order_ok in Hs.
  rewrite forallb_forall in Hs. rewrite (Hs event Hin) in Hbad. discriminate.
Qed.

(** ** What the drain adds *)

Lemma disconnectAll_loop_vectors from fuel : forall it m m',
  disconnectAll_loop fuel from it m = Ok m' ->
  sourceNodes_ m' = sourceNodes_ m /\
  processingNodes_ m' = processingNodes_ m /\
  audioParams_ m' = audioParams_ m.
Proof.
  induction fuel as [|fuel IH]; intros it m m' Hl.
  - destruct it; simpl in Hl; [discriminate|]. inversion Hl; subst. repeat split.
  - destruct it as [x|]; simpl in Hl.
    + destruct (iterator_valid (outputNodes_ (env m) from) x); [|discriminate].
      apply IH in Hl. exact Hl.
    + inversion Hl; subst. repeat split.
Qed.

Lemma dispatch_registers event m m' :
  dispatch event m = Ok m' ->
  sourceNodes_ m' = sourceNodes_ m ++ registered_sources [event] /\
  processingNodes_ m' = processingNodes_ m ++ registered_processors [event] /\
  audioParams_ m' = audioParams_ m ++ registered_params [event].
Proof.
  destruct event as [t p].
  unfold dispatch, handleConnectEvent, handleDisconnectEvent,
    handleDisconnectAllEvent, handleAddToDeconstructionEvent,
    registered_sources, registered_processors, registered_params. simpl.
  destruct t; destruct p; simpl; intros Hd; try discriminate;
    first [ apply disconnectAll_loop_vectors in Hd; rewrite ?app_nil_r; exact Hd
          | inversion Hd; subst; simpl; rewrite ?app_nil_r; repeat split ].
Qed.

Lemma dispatch_in_order_registers events : forall m m',
  dispatch_in_enqueue_order events m = Ok m' ->
  sourceNodes_ m' = sourceNodes_ m ++ registered_sources events /\
  processingNodes_ m' = processingNodes_ m ++ registered_processors events /\
  audioParams_ m' = audioParams_ m ++ registered_params events.
Proof.
  induction events as [|event events IH]; intros m m' Hd.
  - simpl in Hd. inversion Hd; subst. simpl. rewrite !app_nil_r. repeat split.
  - simpl in Hd.
    destruct (dispatch event _) as [m1|f] eqn:H1; simpl in Hd; [|discriminate].
    apply dispatch_registers in H1. simpl sourceNodes_ in H1.
    simpl processingNodes_ in H1. simpl audioParams_ in H1.
    destruct H1 as (Hs1 & Hp1 & Ha1).
    destruct (IH _ _ Hd) as (Hs & Hp & Ha).
    rewrite Hs, Hp, Ha, Hs1, Hp1, Ha1.
    change (event :: events) with ([event] ++ events).
    unfold registered_sources, registered_processors, registered_params.
    rewrite !flat_map_app, <- !app_assoc. repeat split.
Qed.

(** X8.  A drain that returns has appended to each tracked vector the
    handles of the ADD events for it, in the order the events were queued,
    and has done nothing else to the vectors: it erases no entry, and it
    leaves the destructor's channel alone. *)
Theorem drain_appends_registrations m m' :
  settlePendingConnections m = Ok m' ->
  sourceNodes_ m' = sourceNodes_ m ++ registered_sources (spsc.buffer (receiver_ m)) /\
  processingNodes_ m'
  = processingNodes_ m ++ registered_processors (spsc.buffer (receiver_ m)) /\
  audioParams_ m' = audioParams_ m ++ registered_params (spsc.buffer (receiver_ m)) /\
  nodeDeconstructor_ m' = nodeDeconstructor_ m.
Proof.
  intros Hs. rewrite settle_in_order in Hs.
  destruct (dispatch_in_order_registers _ _ _ Hs) as (A & B & C).
  destruct (dispatch_in_order_effect _ _ _ Hs eq_refl) as (_ & _ & D & _).
  repeat split; assumption.
Qed.

(** ** Use counts across registration *)

Lemma count_occ_snoc_eqb (l : list nat) (x n : nat) :
  count_occ Nat.eq_dec (l ++ [x]) n
  = count_occ Nat.eq_dec l n + (if x =? n then 1 else 0).
Proof.
  rewrite count_occ_app. simpl.
  destruct (Nat.eq_dec x n) as [->|Hne].
  - now rewrite Nat.eqb_refl.
  - apply Nat.eqb_neq in Hne. now rewrite Hne.
Qed.

Lemma add_dispatch_use_count event q m m' n :
  type event = ADD ->
  spsc.buffer (receiver_ m) = event :: q ->
  dispatch event (set_receiver (spsc.mkChannel (spsc.capacity (receiver_ m)) q) m) = Ok m' ->
  use_count m' n = use_count m n /\ env m' = env m /\ trace m' = trace m /\
  spsc.buffer (receiver_ m') = q.
Proof.
  intros Ht Hb. destruct event as [t p]. simpl in Ht. subst t.
  unfold dispatch, handleAddToDeconstructionEvent. simpl.
  destruct p; intros Hd; try discriminate; inversion Hd; subst; clear Hd;
    unfold use_count, queue_holds; simpl; rewrite Hb; simpl;
    unfold event_holds; simpl; rewrite ?count_occ_snoc_eqb;
    (split; [count_lia|repeat split]).
Qed.

Lemma add_events_use_count events : forall m m' n,
  (forall event, In event events -> type event = ADD) ->
  spsc.buffer (receiver_ m) = events ->
  dispatch_in_enqueue_order events m = Ok m' ->
  use_count m' n = use_count m n /\ env m' = env m /\ trace m' = trace m.
Proof.
  induction events as [|event events IH]; intros m m' n Hadd Hb Hd.
  - simpl in Hd. inversion Hd; subst. repeat split.
  - simpl in Hd.
    destruct (dispatch event _) as [m1|f] eqn:H1; simpl in Hd; [|discriminate].
    destruct (add_dispatch_use_count event events m m1 n (Hadd _ (or_introl eq_refl)) Hb H1)
      as (Hu1 & He1 & Ht1 & Hb1).
    destruct (IH m1 m' n) as (Hu & He & Ht).
    + intros e He. apply Hadd. now right.
    + exact Hb1.
    + exact Hd.
    + repeat split; congruence.
Qed.

(** X9.  Registration moves handles, it does not create any: a producer
    request raises the use count of a node by the number of handles to it
    that the queued event carries, and a drain of ADD events changes no
    use count at all (the handle passes from the event into the tracked
    vector), issues no call and leaves the graph as it is. *)
Theorem registration_moves_handles m :
  (forall event m' n,
      send_event event m = Some m' ->
      use_count m' n = use_count m n + event_holds n event) /\
  (forall m' n,
      (forall event, In event (spsc.buffer (receiver_ m)) -> type event = ADD) ->
      settlePendingConnections m = Ok m' ->
      use_count m' n = use_count m n /\ env m' = env m /\ trace m' = trace m).
Proof.
  split.
  - intros event m' n Hs.
    destruct (send_event_effect _ _ _ Hs) as (Hb & _ & He & Hsn & Hpn & _ & Hd & _).
    unfold use_count, queue_holds. rewrite Hb, He, Hsn, Hpn, Hd.
    rewrite map_app, list_sum_app. simpl. lia.
  - intros m' n Hadd Hs. rewrite settle_in_order in Hs.
    exact (add_events_use_count _ m m' n Hadd eq_refl Hs).
Qed.

(** ** From the request to the drain *)

Lemma settle_loop_empty fuel m :
  spsc.buffer (receiver_ m) = [] -> settle_loop fuel m = Ok m.
Proof.
  intros Hb. destruct fuel; simpl; unfold spsc.try_receive; rewrite Hb; reflexivity.
Qed.

Lemma request_then_drain_is_dispatch event m :
  spsc.buffer (receiver_ m) = [] ->
  0 < spsc.capacity (receiver_ m) ->
  exists m1, send_event event m = Some m1 /\
             settlePendingConnections m1 = dispatch event m.
Proof.
  destruct m as [w [cap buf] src proc par d t]. simpl. intros -> Hcap.
  unfold send_event, spsc.send, spsc.try_send, spsc.is_full. simpl.
  destruct cap as [|cap]; [lia|]. simpl.
  eexists. split; [reflexivity|].
  unfold settlePendingConnections. simpl. unfold spsc.try_receive. simpl.
  unfold set_receiver. simpl.
  destruct (dispatch event _) as [m'|f] eqn:Hd; simpl; [|reflexivity].
  rewrite (he_receiver (dispatch_effect _ _ _ Hd)). reflexivity.
Qed.

(** X10.  A request whose payload fits its type, issued into an empty
    channel, takes effect at the next drain and is then exactly its
    handler run on the manager as it was:
    a registration appends the handle to its vector and changes nothing
    else, and a CONNECT or DISCONNECT request on a node pair or on a node
    and a parameter is the one call on the node. *)
Theorem request_takes_effect_at_drain m :
  spsc.buffer (receiver_ m) = [] ->
  0 < spsc.capacity (receiver_ m) ->
  (forall event, event_ok event = true -> exists m1,
      send_event event m = Some m1 /\
      settlePendingConnections m1 = dispatch event m) /\
  (forall node, exists m1,
      addProcessingNode node m = Some m1 /\
      settlePendingConnections m1
      = Ok (set_processingNodes (processingNodes_ m ++ [node]) m)) /\
  (forall node, exists m1,
      addSourceNode node m = Some m1 /\
      settlePendingConnections m1
      = Ok (set_sourceNodes (sourceNodes_ m ++ [node]) m)) /\
  (forall param, exists m1,
      addAudioParam param m = Some m1 /\
      settlePendingConnections m1
      = Ok (set_audioParams (audioParams_ m ++ [param]) m)) /\
  (forall from to, exists m1,
      addPendingNodeConnection from to CONNECT m = Some m1 /\
      settlePendingConnections m1
      = Ok (call (CallConnectNode from to) (connectNode from to) m)) /\
  (forall from to, exists m1,
      addPendingNodeConnection from to DISCONNECT m = Some m1 /\
      settlePendingConnections m1
      = Ok (call (CallDisconnectNode from to) (disconnectNode from to) m)) /\
  (forall from to, exists m1,
      addPendingParamConnection from to CONNECT m = Some m1 /\
      settlePendingConnections m1
      = Ok (call (CallConnectParam from to) (connectParam from to) m)) /\
  (forall from to, exists m1,
      addPendingParamConnection from to DISCONNECT m = Some m1 /\
      settlePendingConnections m1
      = Ok (call (CallDisconnectParam from to) (disconnectParam from to) m)).
Proof.
  intros Hb Hcap.
  repeat split; intros;
    match goal with
    | |- exists m1, ?send = Some m1 /\ _ =>
        let e := match send with
                 | send_event ?e _ => e
                 | addProcessingNode ?x _ => constr:(mkEvent ADD (payload_node x))
                 | addSourceNode ?x _ => constr:(mkEvent ADD (payload_sourceNode x))
                 | addAudioParam ?x _ => constr:(mkEvent ADD (payload_audioParam x))
                 | addPendingNodeConnection ?a ?b ?t _ =>
                     constr:(mkEvent t (payload_nodes a b))
                 | addPendingParamConnection ?a ?b ?t _ =>
                     constr:(mkEvent t (payload_params a b))
                 end in
        destruct (request_then_drain_is_dispatch e m Hb Hcap) as (m1 & Hs & Hd);
        exists m1; split; [exact Hs|exact Hd]
    end.
Qed.

(** ** The saved iterator *)

(** X11.  [handleDisconnectAllEvent] relies on [disconnectNode] leaving
    the next edge in place: if disconnecting the first outgoing edge also
    removes the second one, the iterator saved before the call is stale
    when the loop comes back to it, and the handler dereferences it. *)
Theorem cascading_disconnect_breaks_the_iterator m from to x y rest :
  outputNodes_ (env m) from = x :: y :: rest ->
  iterator_valid (outputNodes_ (disconnectNode from x (env m)) from) y = false ->
  handleDisconnectAllEvent (mkEvent DISCONNECT_ALL (payload_nodes from to)) m
  = Abort InvalidIterator.
Proof.
  intros Hout Hgone. unfold handleDisconnectAllEvent. simpl.
  rewrite Hout. simpl. rewrite !Hout.
  unfold iterator_valid at 1. simpl. rewrite !Nat.eqb_refl. simpl.
  rewrite Hgone. reflexivity.
Qed.

(** ** The earlier revision *)

Lemma legacy_set_insert_idempotent (x : nat) (l : list nat) :
  Legacy.set_insert x (Legacy.set_insert x l) = Legacy.set_insert x l.
Proof.
  unfold Legacy.set_insert.
  destruct (existsb (Nat.eqb x) l) eqn:Hex.
  - now rewrite Hex.
  - rewrite existsb_app. simpl. rewrite Nat.eqb_refl, orb_true_r. reflexivity.
Qed.

Lemma legacy_set_insert_In (x : nat) (l : list nat) : In x (Legacy.set_insert x l).
Proof.
  unfold Legacy.set_insert. destruct (existsb (Nat.eqb x) l) eqn:Hex.
  - apply existsb_exists in Hex. destruct Hex as (y & Hy & Hxy).
    apply Nat.eqb_eq in Hxy. now subst y.
  - apply in_or_app. right. now left.
Qed.

(** X12.  In the earlier revision registration has set semantics: [insert]
    keeps each tracked collection free of duplicates, the carried identity
    is a member afterwards, and handling the same ADD event a second time
    changes nothing. *)
Theorem legacy_registration_is_idempotent event m m' :
  Legacy.handleAddEvent event m = Ok m' ->
  Legacy.handleAddEvent event m' = Ok m' /\
  (NoDup (sourceNodes_ m) -> NoDup (sourceNodes_ m')) /\
  (NoDup (processingNodes_ m) -> NoDup (processingNodes_ m')) /\
  (NoDup (audioParams_ m) -> NoDup (audioParams_ m')) /\
  match payload event with
  | payload_node node => In node (processingNodes_ m')
  | payload_sourceNode sourceNode => In sourceNode (sourceNodes_ m')
  | payload_audioParam audioParam => In audioParam (audioParams_ m')
  | _ => False
  end.
Proof.
  unfold Legacy.handleAddEvent.
  destruct (payload event); intros Hh; try discriminate;
    inversion Hh; subst; clear Hh; simpl;
    rewrite legacy_set_insert_idempotent;
    (split; [reflexivity|]);
    repeat split; auto using legacy_set_insert_NoDup, legacy_set_insert_In.
Qed.

(** X13.  The connection handlers and [cleanup] of the earlier revision
    against the current ones, in a build with assertions enabled
    ([NDEBUG] not defined).  The earlier [handleConnectEvent] and
    [handleDisconnectEvent] fail their assertion on a node-parameter pair
    and agree with the current ones on every other event; the earlier
    [cleanup] issues the same calls and leaves the same state as the
    current one, except that it keeps the tracked parameters.  Nothing is
    said here of the ADD handler and of the sweep, on which the revisions
    differ as well. *)
Theorem legacy_connection_handlers_and_cleanup event m :
  Legacy.handleConnectEvent event m
  = (match payloadType event with
     | PARAMS => Abort AssertionFailed
     | _ => handleConnectEvent event m
     end) /\
  Legacy.handleDisconnectEvent event m
  = (match payloadType event with
     | PARAMS => Abort AssertionFailed
     | _ => handleDisconnectEvent event m
     end) /\
  cleanup m = set_audioParams [] (Legacy.cleanup m) /\
  audioParams_ (Legacy.cleanup m) = audioParams_ m.
Proof.
  unfold Legacy.handleConnectEvent, Legacy.handleDisconnectEvent,
    handleConnectEvent, handleDisconnectEvent, payloadType.
  split; [destruct (payload event); reflexivity|].
  split; [destruct (payload event); reflexivity|].
  split; [reflexivity|apply legacy_cleanup_keeps_params].
Qed.

(** ** A whole render quantum *)

(** X14.  A render quantum that returns accounts for every handle: the
    mutation channel is empty, the tracked parameters are the old ones
    followed by the registered ones, and the tracked nodes of before
    together with the nodes the queued ADD events registered are, up to
    order, the tracked nodes of afterwards together with the handles
    appended to the destructor's channel. *)
Theorem render_quantum_accounts_for_every_handle m m' :
  preProcessGraph m = Ok m' ->
  spsc.buffer (receiver_ m') = [] /\
  audioParams_ m' = audioParams_ m ++ registered_params (spsc.buffer (receiver_ m)) /\
  exists handed_over,
    spsc.buffer (nodeDeconstructor_ m')
    = spsc.buffer (nodeDeconstructor_ m) ++ handed_over /\
    Permutation
      ((sourceNodes_ m ++ registered_sources (spsc.buffer (receiver_ m)))
       ++ (processingNodes_ m ++ registered_processors (spsc.buffer (receiver_ m))))
      (sourceNodes_ m' ++ processingNodes_ m' ++ handed_over).
Proof.
  unfold preProcessGraph.
  destruct (settlePendingConnections m) as [ms|f] eqn:Hs; simpl; [|discriminate].
  intros Hm'. inversion Hm'; subst m'; clear Hm'.
  rewrite settle_in_order in Hs.
  destruct (dispatch_in_order_registers _ _ _ Hs) as (Hsrc & Hproc & Hpar).
  destruct (dispatch_in_order_effect _ _ _ Hs eq_refl) as (Hempty & _ & Hd & _).
  destruct (prepare_attempts ms) as (attempts & _ & _ & Hb & Hperm & _).
  split; [|split].
  - rewrite (prepare_split Sources).
    destruct (finishSweep_frame Sources
                (sweepNodes Sources [] (tracked Sources (loopStart Sources ms))
                   (loopStart Sources ms))) as (_ & Hr & _).
    rewrite Hr.
    destruct (sweepNodes_frame Sources [] (tracked Sources (loopStart Sources ms))
                (loopStart Sources ms)) as (Hr' & _).
    rewrite Hr'. exact Hempty.
  - rewrite prepare_audioParams. exact Hpar.
  - exists (retired attempts). split.
    + rewrite Hb, Hd. reflexivity.
    + rewrite <- Hsrc, <- Hproc. exact Hperm.
Qed.

(** ** Delivery to the destructor *)

Lemma teardown_calls_attempts n (attempts : list Attempt) :
  teardown_calls n (flat_map attempt_calls attempts)
  = flat_map attempt_calls (filter (fun a => fst a =? n) attempts).
Proof.
  unfold teardown_calls.
  induction attempts as [|[x b] attempts IH]; [reflexivity|].
  simpl. destruct (x =? n); simpl; now rewrite IH.
Qed.

Lemma count_occ_retired n (attempts : list Attempt) :
  count_occ Nat.eq_dec (retired attempts) n
  = count_occ Nat.eq_dec (retired (filter (fun a => fst a =? n) attempts)) n.
Proof.
  unfold retired.
  induction attempts as [|[x b] attempts IH]; [reflexivity|].
  simpl. destruct (x =? n) eqn:Hx; destruct b; simpl; rewrite ?IH; try reflexivity.
  apply Nat.eqb_neq in Hx. destruct (Nat.eq_dec x n); [contradiction|reflexivity].
Qed.

Lemma attempts_of_calls (attempts : list Attempt) n b :
  flat_map attempt_calls attempts = attempt_calls (n, b) -> attempts = [(n, b)].
Proof.
  destruct attempts as [|[x c] [|[y d] attempts]]; simpl; intros Heq;
    try discriminate.
  - inversion Heq; subst. reflexivity.
Qed.

(** X15.  A node whose entry qualifies when the sweep reaches it, while
    the destructor's channel has room, is delivered to the destructor
    exactly once by this sweep: its handle occurs once more in the
    destructor's channel than before, no tracked entry of it is left, and
    the calls of the sweep on it are one cleanup followed by one accepted
    retire attempt. *)
Theorem qualifying_node_is_delivered_exactly_once s m pre n post kept mv :
  tracked s (loopStart s m) = pre ++ n :: post ->
  sweepPrefix s [] pre (n :: post) (loopStart s m) = (kept, mv) ->
  qualifies s mv n = true ->
  spsc.is_full (nodeDeconstructor_ mv) = false ->
  count_occ Nat.eq_dec (spsc.buffer (nodeDeconstructor_ (prepareNodesForDestruction m))) n
  = count_occ Nat.eq_dec (spsc.buffer (nodeDeconstructor_ m)) n + 1 /\
  entries (prepareNodesForDestruction m) n = 0 /\
  teardown_calls n (trace (prepareNodesForDestruction m))
  = teardown_calls n (trace m) ++ [CallCleanup n; CallTryAddNodeForDeconstruction n true].
Proof.
  intros Ht Hp Hq Hroom.
  pose proof (qualifying_sweep_calls s m pre n post kept mv Ht Hp Hq) as Hcalls.
  rewrite Hroom in Hcalls. simpl negb in Hcalls.
  (* the entry is the only tracked entry of the node, from the start *)
  assert (Htv : tracked s mv = kept ++ n :: post)
    by (apply (sweepPrefix_tracked s pre [] (n :: post) (loopStart s m) kept mv);
        [exact Ht|exact Hp]).
  destruct (qualifying_entry_alone s mv kept n post Htv Hq) as (_ & _ & Hone).
  assert (Hstart : entries m n = 1).
  { destruct (loopStart_quiet s n m) as (_ & He0).
    { intros -> Hsrc. simpl in Ht.
      destruct (loopStart_frame Processors m) as (_ & _ & Hpn & _).
      simpl in Hpn. rewrite Hpn in Ht.
      apply In_count_occ_pos in Hsrc.
      assert (Hin : In n (processingNodes_ m))
        by (rewrite Ht; apply in_or_app; right; now left).
      apply In_count_occ_pos in Hin. unfold entries. count_lia. }
    destruct (sweepPrefix_quiet s n pre [] (n :: post) (loopStart s m) kept mv Ht)
      as (_ & He1 & _).
    { intros Hin. apply In_count_occ_pos in Hin.
      pose proof (count_occ_tracked_le_entries s (loopStart s m) n) as Hle.
      rewrite Ht, count_occ_app in Hle. simpl in Hle.
      destruct (Nat.eq_dec n n) as [_|Hne]; [|contradiction]. count_lia. }
    { exact Hp. }
    congruence. }
  (* the attempts of the sweep on the node *)
  destruct (prepare_attempts m) as (attempts & Htr & _ & Hb & Hperm & _).
  rewrite Htr, teardown_calls_app, teardown_calls_attempts in Hcalls.
  apply app_inv_head in Hcalls.
  apply (attempts_of_calls _ n true) in Hcalls.
  assert (Hcount : count_occ Nat.eq_dec (retired attempts) n = 1).
  { pose proof (count_occ_retired n attempts) as Hcr.
    rewrite Hcalls in Hcr. rewrite Hcr. unfold retired. simpl.
    destruct (Nat.eq_dec n n); [reflexivity|contradiction]. }
  assert (Hc := proj1 (Permutation_count_occ Nat.eq_dec _ _) Hperm n).
  rewrite !count_occ_app in Hc.
  split; [|split].
  - rewrite Hb, count_occ_app. count_lia.
  - unfold entries in *. count_lia.
  - rewrite Htr, teardown_calls_app, teardown_calls_attempts, Hcalls. reflexivity.
Qed.

(** ** A destructor that does not keep up *)

Lemma sweepPrefix_full s pre : forall kept post m k m1,
  spsc.is_full (nodeDeconstructor_ m) = true ->
  sweepPrefix s kept pre post m = (k, m1) ->
  k = kept ++ pre /\
  sourceNodes_ m1 = sourceNodes_ m /\
  processingNodes_ m1 = processingNodes_ m /\
  nodeDeconstructor_ m1 = nodeDeconstructor_ m.
Proof.
  induction pre as [|n pre IH]; intros kept post m k m1 Hfull Hp.
  - simpl in Hp. inversion Hp; subst. rewrite app_nil_r. repeat split.
  - rewrite sweepPrefix_cons in Hp.
    destruct (qualifies s m n) eqn:Hq.
    + rewrite (visitNode_qualifying s n m Hq), Hfull in Hp. cbn [fst snd] in Hp.
      destruct (IH (kept ++ [n]) post
                  (log (CallTryAddNodeForDeconstruction n false) (cleaned n m))
                  k m1 Hfull Hp) as (-> & Hs & Hpn & Hd).
      rewrite <- app_assoc. repeat split; assumption.
    + rewrite (visitNode_skip s n m Hq) in Hp. cbn [fst snd] in Hp.
      destruct (IH _ _ _ _ _ Hfull Hp) as (-> & Hs & Hpn & Hd).
      rewrite <- app_assoc. repeat split; assumption.
Qed.

(** X16.  While the destructor's channel is full a sweep erases nothing:
    both tracked vectors and the destructor's channel are after the sweep
    what they were before it, whichever entries qualify.  The nodes wait
    in their vectors for a later sweep. *)
Theorem full_destructor_keeps_every_entry m :
  spsc.is_full (nodeDeconstructor_ m) = true ->
  sourceNodes_ (prepareNodesForDestruction m) = sourceNodes_ m /\
  processingNodes_ (prepareNodesForDestruction m) = processingNodes_ m /\
  nodeDeconstructor_ (prepareNodesForDestruction m) = nodeDeconstructor_ m.
Proof.
  intros Hfull. unfold prepareNodesForDestruction, sweepProcessing.
  pose proof (sweepNodes_as_prefix Sources [] (sourceNodes_ m) m) as E1. simpl in E1.
  destruct (sweepPrefix Sources [] (sourceNodes_ m) [] m) as [k1 ms] eqn:Hp1.
  simpl in E1. rewrite E1.
  destruct (sweepPrefix_full Sources _ _ _ _ _ _ Hfull Hp1) as (_ & Hs1 & Hpn1 & Hd1).
  assert (Hfull' : spsc.is_full (nodeDeconstructor_ ms) = true) by now rewrite Hd1.
  pose proof (sweepNodes_as_prefix Processors [] (processingNodes_ ms) ms) as E2.
  simpl in E2.
  destruct (sweepPrefix Processors [] (processingNodes_ ms) [] ms) as [k2 mp] eqn:Hp2.
  simpl in E2. rewrite E2.
  destruct (sweepPrefix_full Processors _ _ _ _ _ _ Hfull' Hp2) as (_ & Hs2 & Hpn2 & Hd2).
  repeat split; congruence.
Qed.

(** ** What the drain does, event by event *)

Lemma disconnectAll_loop_graph from :
  (forall w x, outputNodes_ (disconnectNode from x w) from
               = remove Nat.eq_dec x (outputNodes_ w from)) ->
  forall l fuel m,
    outputNodes_ (env m) from = l ->
    NoDup l ->
    length l <= fuel ->
    exists m',
      disconnectAll_loop fuel from (set_begin l) m = Ok m' /\
      trace m' = trace m ++ map (CallDisconnectNode from) l /\
      env m' = fold_left (fun acc x => disconnectNode from x acc) l (env m).
Proof.
  intros Hdisc. induction l as [|x l IH]; intros fuel m Hl Hnd Hf.
  - exists m. destruct fuel; simpl; rewrite app_nil_r; auto.
  - destruct fuel as [|fuel]; [simpl in Hf; lia|].
    simpl. rewrite Hl. unfold iterator_valid. simpl. rewrite Nat.eqb_refl. simpl.
    set (m1 := call (CallDisconnectNode from x) (disconnectNode from x) m).
    destruct (IH fuel m1) as (m' & Hloop & Htr & Henv).
    + unfold m1. simpl. rewrite Hdisc, Hl. now apply remove_head_NoDup.
    + now inversion Hnd.
    + simpl in Hf. lia.
    + exists m'. split; [exact Hloop|]. split; [|exact Henv].
      rewrite Htr. unfold m1. simpl. now rewrite <- app_assoc.
Qed.

Lemma dispatch_observable event m :
  outputs_are_sets -> disconnectNode_erases ->
  event_ok event = true ->
  exists m',
    dispatch event m = Ok m' /\
    trace m' = trace m ++ handler_calls (env m) event /\
    env m' = handler_graph (env m) event.
Proof.
  intros Hsets Herase Hok. destruct event as [t p].
  unfold event_ok, payloadType in Hok. simpl in Hok.
  unfold dispatch, handleConnectEvent, handleDisconnectEvent,
    handleAddToDeconstructionEvent, handleDisconnectAllEvent,
    handler_calls, handler_graph. simpl.
  destruct t; destruct p; try discriminate;
    try (eexists; split; [reflexivity|]; simpl; rewrite ?app_nil_r; split; reflexivity).
  destruct (disconnectAll_loop_graph from (fun w x => Herase w from x)
              (outputNodes_ (env m) from) (length (outputNodes_ (env m) from)) m
              eq_refl (Hsets _ _) (le_n _)) as (m' & Hloop & Htr & Henv).
  exists m'. repeat split; assumption.
Qed.

Lemma dispatch_in_order_observable events : forall m,
  outputs_are_sets -> disconnectNode_erases ->
  forallb event_ok events = true ->
  exists m',
    dispatch_in_enqueue_order events m = Ok m' /\
    trace m' = trace m ++ drain_calls (env m) events /\
    env m' = drain_graph (env m) events.
Proof.
  induction events as [|event events IH]; intros m Hsets Herase Hok.
  - exists m. simpl. rewrite app_nil_r. repeat split.
  - simpl in Hok. apply andb_prop in Hok. destruct Hok as (Hok & Hoks).
    simpl.
    destruct (dispatch_observable event
                (set_receiver (spsc.mkChannel (spsc.capacity (receiver_ m)) events) m)
                Hsets Herase Hok) as (m1 & Hd & Htr & Henv).
    simpl in Htr, Henv. rewrite Hd. simpl.
    destruct (IH m1 Hsets Herase Hoks) as (m' & Hd' & Htr' & Henv').
    exists m'. split; [exact Hd'|]. split.
    + rewrite Htr', Htr, Henv. now rewrite <- app_assoc.
    + rewrite Henv', Henv. reflexivity.
Qed.

(** C8 (FIFO drain).  Let the producer issue [events], in this order,
    into an empty channel.  One call of [settlePendingConnections] then
    hands exactly these events to their handlers, one by one in the order
    they were sent; if it returns, the channel is empty and every tracked
    vector has gained the handles of its ADD events in that order.  It
    does return when every event carries a payload its handler accepts
    and the edges of the nodes behave as sets, and what it has done is
    then observable: the trace has gained the calls of the handlers, event
    after event in the order of the queue, and the graph is the one these
    calls have left. *)
Theorem settle_drains_in_enqueue_order m0 events m :
  spsc.buffer (receiver_ m0) = [] ->
  send_all events m0 = Some m ->
  spsc.buffer (receiver_ m) = events /\
  settlePendingConnections m = dispatch_in_enqueue_order events m /\
  (forall m', settlePendingConnections m = Ok m' ->
              spsc.buffer (receiver_ m') = [] /\
              sourceNodes_ m' = sourceNodes_ m0 ++ registered_sources events /\
              processingNodes_ m' = processingNodes_ m0 ++ registered_processors events /\
              audioParams_ m' = audioParams_ m0 ++ registered_params events) /\
  (outputs_are_sets -> disconnectNode_erases -> forallb event_ok events = true ->
   exists m',
     settlePendingConnections m = Ok m' /\
     spsc.buffer (receiver_ m') = [] /\
     trace m' = trace m0 ++ drain_calls (env m0) events /\
     env m' = drain_graph (env m0) events /\
     sourceNodes_ m' = sourceNodes_ m0 ++ registered_sources events /\
     processingNodes_ m' = processingNodes_ m0 ++ registered_processors events /\
     audioParams_ m' = audioParams_ m0 ++ registered_params events).
Proof.
  intros Hempty Hsend.
  destruct (send_all_buffer _ _ _ Hsend) as (Hb & Henv & Hsn & Hpn & Hap & _ & Htrace).
  rewrite Hempty in Hb. simpl in Hb.
  assert (Hsettle : settlePendingConnections m = dispatch_in_enqueue_order events m)
    by (rewrite settle_in_order, Hb; reflexivity).
  assert (Hdone : forall m', settlePendingConnections m = Ok m' ->
              spsc.buffer (receiver_ m') = [] /\
              sourceNodes_ m' = sourceNodes_ m0 ++ registered_sources events /\
              processingNodes_ m' = processingNodes_ m0 ++ registered_processors events /\
              audioParams_ m' = audioParams_ m0 ++ registered_params events).
  { intros m' Hs. rewrite Hsettle in Hs.
    destruct (dispatch_in_order_effect _ _ _ Hs Hb) as (He & _).
    destruct (dispatch_in_order_registers _ _ _ Hs) as (A & B & C).
    rewrite <- Hsn, <- Hpn, <- Hap. repeat split; assumption. }
  split; [exact Hb|]. split; [exact Hsettle|]. split; [exact Hdone|].
  intros Hsets Herase Hok.
  destruct (dispatch_in_order_observable events m Hsets Herase Hok)
    as (m' & Hd & Htr & Hgraph).
  assert (Hs : settlePendingConnections m = Ok m') by now rewrite Hsettle.
  destruct (Hdone m' Hs) as (He & A & B & C).
  exists m'. rewrite <- Htrace, <- Henv. repeat split; assumption.
Qed.

End MoreProperties.

(** * Runs of the further properties on the concrete graphs *)

(** A render quantum on [fan_out_manager], whose only tracked node is
    PLAYING and owned outside: nothing changes. *)
Lemma idle_sweep_witness :
  preProcessGraph SpecGraph.fan_out_manager = Ok SpecGraph.fan_out_manager.
Proof.
  assert (Hidle : no_entry_qualifies SpecGraph.fan_out_manager).
  { split; intros n Hin; vm_compute in Hin.
    - destruct Hin as [<-|[]]. vm_compute. reflexivity.
    - destruct Hin. }
  exact (proj2 (idle_sweep_changes_nothing SpecGraph.fan_out_manager) Hidle eq_refl).
Defined.

(** Node 1 of [tracked_twice], finished and unowned, survives three sweeps
    with both entries. *)
Lemma twice_tracked_witness :
  2 <= entries SpecGraph.tracked_twice 1 /\
  entries (sweeps 3 SpecGraph.tracked_twice) 1 = entries SpecGraph.tracked_twice 1.
Proof.
  assert (H2 : 2 <= entries SpecGraph.tracked_twice 1) by (vm_compute; lia).
  split; [exact H2|].
  exact (proj2 (twice_tracked_is_never_retired SpecGraph.tracked_twice 1 3 H2)).
Defined.

(** The drain of [misfit_queued] does not return. *)
Lemma misfit_event_witness :
  exists f, settlePendingConnections SpecGraph.misfit_queued = Abort f.
Proof.
  assert (Hin : In (mkEvent ADD (payload_nodes 1 2))
                  (spsc.buffer (receiver_ SpecGraph.misfit_queued)))
    by (vm_compute; left; reflexivity).
  destruct (settlePendingConnections SpecGraph.misfit_queued) as [m'|f] eqn:Hs.
  - exfalso.
    exact (misfit_event_stops_the_drain SpecGraph.misfit_queued
             (mkEvent ADD (payload_nodes 1 2)) Hin eq_refl m' Hs).
  - exists f. reflexivity.
Defined.

(** The drain of [registrations_queued]. *)
Lemma drain_appends_witness :
  exists m',
    settlePendingConnections SpecGraph.registrations_queued = Ok m' /\
    sourceNodes_ m' = [1; 3] /\ processingNodes_ m' = [2] /\ audioParams_ m' = [7].
Proof.
  destruct (settlePendingConnections SpecGraph.registrations_queued) as [m'|f] eqn:Hs.
  - destruct (drain_appends_registrations SpecGraph.registrations_queued m' Hs)
      as (A & B & C & _).
    exists m'. split; [reflexivity|].
    split; [rewrite A|split; [rewrite B|rewrite C]]; vm_compute; reflexivity.
  - vm_compute in Hs. discriminate Hs.
Defined.

(** The use count of node 1 across the drain of [registrations_queued]. *)
Lemma registration_moves_handles_witness :
  exists m',
    settlePendingConnections SpecGraph.registrations_queued = Ok m' /\
    use_count m' 1 = use_count SpecGraph.registrations_queued 1.
Proof.
  assert (Hadd : forall event,
             In event (spsc.buffer (receiver_ SpecGraph.registrations_queued)) ->
             type event = ADD).
  { intros event Hin. vm_compute in Hin.
    destruct Hin as [<-|[<-|[<-|[<-|[]]]]]; reflexivity. }
  destruct (settlePendingConnections SpecGraph.registrations_queued) as [m'|f] eqn:Hs.
  - exists m'. split; [reflexivity|].
    exact (proj1 (proj2 (registration_moves_handles SpecGraph.registrations_queued)
                    m' 1 Hadd Hs)).
  - vm_compute in Hs. discriminate Hs.
Defined.

(** Registering source node 1 on [scenario_A_start] and draining. *)
Lemma request_takes_effect_witness :
  exists m1,
    addSourceNode 1 SpecGraph.scenario_A_start = Some m1 /\
    settlePendingConnections m1
    = Ok (set_sourceNodes (sourceNodes_ SpecGraph.scenario_A_start ++ [1])
            SpecGraph.scenario_A_start).
Proof.
  assert (Hcap : 0 < spsc.capacity (receiver_ SpecGraph.scenario_A_start))
    by (vm_compute; lia).
  destruct (request_takes_effect_at_drain SpecGraph.scenario_A_start eq_refl Hcap)
    as (_ & _ & Hsource & _).
  exact (Hsource 1).
Defined.

(** DISCONNECT_ALL on node 1 of the cascading graph. *)
Lemma cascading_disconnect_witness :
  handleDisconnectAllEvent (mkEvent DISCONNECT_ALL (payload_nodes 1 0))
    CascadeGraph.manager = Abort InvalidIterator.
Proof.
  exact (cascading_disconnect_breaks_the_iterator CascadeGraph.manager 1 0 2 3 []
           eq_refl eq_refl).
Defined.

(** A second ADD of source node 1 in the earlier revision. *)
Lemma legacy_registration_witness :
  Legacy.handleAddEvent (mkEvent ADD (payload_sourceNode 1)) SpecGraph.tracked_once
  = Ok SpecGraph.tracked_once.
Proof.
  exact (proj1 (legacy_registration_is_idempotent
                  (mkEvent ADD (payload_sourceNode 1))
                  SpecGraph.tracked_once SpecGraph.tracked_once eq_refl)).
Defined.

(** A render quantum on [registrations_queued]. *)
Lemma render_quantum_witness :
  exists m',
    preProcessGraph SpecGraph.registrations_queued = Ok m' /\
    spsc.buffer (receiver_ m') = [] /\
    audioParams_ m' = [7].
Proof.
  destruct (preProcessGraph SpecGraph.registrations_queued) as [m'|f] eqn:Hq.
  - destruct (render_quantum_accounts_for_every_handle
                SpecGraph.registrations_queued m' Hq) as (A & B & _).
    exists m'. split; [reflexivity|]. split; [exact A|].
    rewrite B. vm_compute. reflexivity.
  - vm_compute in Hq. discriminate Hq.
Defined.

(** Node 5 of [destructor_busy] once the destructor's thread has made
    room. *)
Lemma delivered_exactly_once_witness :
  count_occ Nat.eq_dec
    (spsc.buffer (nodeDeconstructor_
       (prepareNodesForDestruction
          (AudioNodeDestructor_process SpecGraph.destructor_busy)))) 5
  = count_occ Nat.eq_dec
      (spsc.buffer (nodeDeconstructor_
         (AudioNodeDestructor_process SpecGraph.destructor_busy))) 5 + 1.
Proof.
  pose (m := AudioNodeDestructor_process SpecGraph.destructor_busy).
  assert (Hq : qualifies Sources m 5 = true) by (vm_compute; reflexivity).
  assert (Hroom : spsc.is_full (nodeDeconstructor_ m) = false) by (vm_compute; reflexivity).
  exact (proj1 (qualifying_node_is_delivered_exactly_once Sources m [] 5 [] [] m
                  eq_refl eq_refl Hq Hroom)).
Defined.

(** A sweep of [destructor_busy], whose destructor channel is full. *)
Lemma full_destructor_witness :
  sourceNodes_ (prepareNodesForDestruction SpecGraph.destructor_busy) = [5] /\
  spsc.buffer (nodeDeconstructor_ (prepareNodesForDestruction SpecGraph.destructor_busy))
  = [9].
Proof.
  destruct (full_destructor_keeps_every_entry SpecGraph.destructor_busy eq_refl)
    as (Hs & _ & Hd).
  split; [exact Hs|now rewrite Hd].
Defined.

(** The requests [fan_out_requests] sent into the empty channel of a manager
    on the graph [fan_out] and drained by one call: the calls of the
    handlers in the order of the queue, the edge to the new node 5
    disconnected with the other three. *)
Lemma settle_drains_witness :
  exists m m',
    send_all SpecGraph.fan_out_requests (SpecGraph.manager SpecGraph.fan_out 16) = Some m /\
    settlePendingConnections m = Ok m' /\
    spsc.buffer (receiver_ m') = [] /\
    trace m' = [CallConnectNode 1 5; CallDisconnectNode 1 2; CallDisconnectNode 1 3;
                CallDisconnectNode 1 4; CallDisconnectNode 1 5] /\
    outputNodes_ (env m') 1 = [] /\
    sourceNodes_ m' = [5] /\ audioParams_ m' = [7].
Proof.
  pose (m0 := SpecGraph.manager SpecGraph.fan_out 16).
  pose (m := SpecGraph.force (send_all SpecGraph.fan_out_requests m0) m0).
  destruct (settle_drains_in_enqueue_order m0 SpecGraph.fan_out_requests m
              eq_refl eq_refl) as (_ & _ & _ & Hreturns).
  destruct (Hreturns SpecGraph_outputs_are_sets SpecGraph_disconnectNode_erases eq_refl)
    as (m' & Hs & Hb & Htr & Hgraph & Hsrc & _ & Hpar).
  exists m, m'. split; [reflexivity|]. split; [exact Hs|]. split; [exact Hb|].
  split; [rewrite Htr; vm_compute; reflexivity|].
  split; [rewrite Hgraph; vm_compute; reflexivity|].
  split; [rewrite Hsrc|rewrite Hpar]; vm_compute; reflexivity.
Defined.
